(** * tv-photo-slideshow: playback engine, settings store and metadata extractor

  A shallow embedding of the JavaScript sources
  - the [Slideshow] component: [loadPhotos], [loadExifData], [goToNextPhoto],
    [goToPreviousPhoto], [togglePause], [handleKeyPress], [shuffleArray];
  - [services/configService.js]: [loadConfig], [saveConfig], [migrateConfig],
    [validateConfig];
  - [utils/exifUtils.js]: [extractExifData], [formatExposureTime],
    [getLocationName];
  - the save path: the form of the [Settings] component with its
    [handleSubmit], and [handleSaveConfig] of [App];
  followed by the properties of the specification that concern them.

  React state is a record; an event handler runs to its end on the state of
  the latest render, and its [setState] calls are applied together.  Code that
  may throw returns a [Result]; an async function is read as the function
  from the outcomes of what it awaits to the outcome of its promise.

  Part I holds the definitions, Part II the theorems. *)

From Stdlib Require Import QArith Qround Qabs.
From stdpp Require Import gmap strings list pretty.

Set Warnings "-register-all".

Open Scope string_scope.
Open Scope list_scope.
Open Scope nat_scope.

(* ===================================================================== *)
(** * Part I -- the embedding                                             *)
(* ===================================================================== *)

(** ** JavaScript values, exceptions *)

Module JS.

(** A JavaScript number: the finite doubles are read as rationals (no
    rounding, no negative zero), with NaN and the two infinities. *)
Inductive Num :=
| NaN
| Fin (q : Q)
| Inf (negative : bool).

(** Objects are property lists (an array is the object with the keys
    "0", "1", ... and "length"); functions do not occur in the data this
    program reads. *)
Inductive Value :=
| Undefined
| Null
| Bool (b : bool)
| Number (n : Num)
| String (s : string)
| Object (props : list (string * Value)).

Inductive Exn :=
| TypeError (msg : string)
| SyntaxError (msg : string)
| DOMException (msg : string)
| Error (msg : string).

Definition message (e : Exn) : string :=
  match e with
  | TypeError m | SyntaxError m | DOMException m | Error m => m
  end.

(** The outcome of evaluating code that may throw (for an async function:
    the settled state of its promise). *)
Inductive Result (A : Type) :=
| Ok (a : A)
| Throw (e : Exn).
Arguments Ok {A} a.
Arguments Throw {A} e.

#[global] Instance result_ret : MRet Result := @Ok.
#[global] Instance result_bind : MBind Result := fun A B f r =>
  match r with
  | Ok a => f a
  | Throw e => Throw e
  end.

(** [try { body } catch (error) { handler }] *)
Definition try_catch {A} (body : Result A) (handler : Exn -> Result A) : Result A :=
  match body with
  | Ok a => Ok a
  | Throw e => handler e
  end.

Definition is_zero (q : Q) : bool := Qeq_bool q 0.

(** ToBoolean *)
Definition truthy (v : Value) : bool :=
  match v with
  | Undefined | Null => false
  | Bool b => b
  | Number NaN => false
  | Number (Fin q) => negb (is_zero q)
  | Number (Inf _) => true
  | String s => negb (String.eqb s "")
  | Object _ => true
  end.

(** [a || b] *)
Definition or (a b : Value) : Value := if truthy a then a else b.

Fixpoint lookup_prop (k : string) (props : list (string * Value)) : Value :=
  match props with
  | [] => Undefined
  | (k', v) :: rest => if String.eqb k k' then v else lookup_prop k rest
  end.

(** [v.k] and [v[k]]: a TypeError on [null] and [undefined]; a primitive has
    none of the data keys this program reads. *)
Definition get (v : Value) (k : string) : Result Value :=
  match v with
  | Undefined | Null =>
      Throw (TypeError ("Cannot read properties of null or undefined, reading " +:+ k))
  | Object props => Ok (lookup_prop k props)
  | Bool _ | Number _ | String _ => Ok Undefined
  end.

Fixpoint assign_prop (k : string) (x : Value) (props : list (string * Value))
  : list (string * Value) :=
  match props with
  | [] => [(k, x)]
  | (k', v) :: rest =>
      if String.eqb k k' then (k, x) :: rest else (k', v) :: assign_prop k x rest
  end.



Definition num_le (a b : Num) : bool :=
  match a, b with
  | NaN, _ | _, NaN => false
  | Fin x, Fin y => Qle_bool x y
  | Fin _, Inf neg => negb neg
  | Inf neg, Fin _ => neg
  | Inf n1, Inf n2 => n1 || negb n2
  end.

(** The parts of the language runtime that are taken as given: ToNumber on
    strings and objects, the string methods and number formatting used by
    the sources, ToString on values that are not strings, and JSON. *)
Class Builtins := {
  StringToNumber : string -> Num;
  ObjectToNumber : list (string * Value) -> Num;
  trim : string -> string;
  toFixed : Num -> nat -> string;
  NumberToString : Num -> string;
  ToString : Value -> string;
  JSON_parse : string -> Result Value;
  JSON_stringify : Value -> string
}.

(** ToNumber *)
Definition ToNumber `{Builtins} (v : Value) : Num :=
  match v with
  | Undefined => NaN
  | Null => Fin 0
  | Bool b => Fin (if b then 1 else 0)
  | Number n => n
  | String s => StringToNumber s
  | Object props => ObjectToNumber props
  end.

Definition ge `{Builtins} (a : Value) (b : Num) : bool := num_le b (ToNumber a).

(** [a === b] against a string constant. *)
Definition strict_eq_string (a : Value) (s : string) : bool :=
  match a with
  | String s' => String.eqb s' s
  | _ => false
  end.


(** [1 / x] is the division of IEEE 754 doubles: the quotient is rounded to
    the nearest double, and it overflows to Infinity on the smallest ones.
    Neither can be read off the rationals, so the operation is taken as
    given. *)
Class Division := reciprocal : Num -> Num.

(** [Math.round(x)]: the nearest integer, halves upwards (exact on doubles:
    the result is an integer that a double holds). *)
Definition Math_round (x : Num) : Num :=
  match x with
  | Fin q => Fin (inject_Z (Qfloor (q + (1 # 2))))
  | _ => x
  end.

(** The string a value contributes to a template literal or to [join]. *)
Definition to_string `{Builtins} (v : Value) : string :=
  match v with
  | String s => s
  | _ => ToString v
  end.

(** [parts.join(sep)] *)
Fixpoint join `{Builtins} (sep : string) (parts : list Value) : string :=
  match parts with
  | [] => ""
  | [v] => to_string v
  | v :: rest => to_string v +:+ sep +:+ join sep rest
  end.

End JS.

(** ** Slideshow.jsx: the playback engine *)

Module Slideshow.

(** *** Arrays on the heap (shuffleArray mutates the array it allocates) *)

Abbreviation Loc := nat.
Abbreviation Heap := (gmap nat (list string)).

(** [[...array]]: a new array with the same elements. *)
Definition spread (h : Heap) (array : Loc) : Heap * Loc :=
  let fresh_loc := fresh (dom h) in
  (<[fresh_loc := default [] (h !! array)]> h, fresh_loc).

(** One value of [Math.random()]: the rational [num / den], in [0, 1). *)
Record Random := {
  num : nat;
  den : nat;
  in_unit_interval : (num <? den) = true
}.

(** [Math.floor(r * n)] *)
Definition floor_mul (r : Random) (n : nat) : nat := (num r * n) / den r.

(** [[a[i], a[j]] = [a[j], a[i]]]: both elements are read, then both
    written.  The loop of [shuffleArray] keeps [j <= i < a.length], so both
    reads succeed (lemma [shuffle_loop_in_range] below); outside that range
    JavaScript would read [undefined] and grow the array, which strings
    alone cannot express, and the array is left as it is. *)
Definition swap (a : list string) (i j : nat) : list string :=
  match a !! i, a !! j with
  | Some x, Some y => <[j := x]> (<[i := y]> a)
  | _, _ => a
  end.

(** The body of [for (let i = shuffled.length - 1; i > 0; i--)], run for the
    current [i] and all smaller ones; [calls] counts the values already taken
    from [Math.random]. *)
Fixpoint shuffle_loop (random : nat -> Random) (calls : nat) (i : nat)
    (h : Heap) (shuffled : Loc) : Heap :=
  match i with
  | 0 => h
  | S i' =>
      let j := floor_mul (random calls) (i + 1) in
      let h' := <[shuffled := swap (default [] (h !! shuffled)) i j]> h in
      shuffle_loop random (S calls) i' h' shuffled
  end.

Definition shuffleArray (random : nat -> Random) (calls : nat)
    (h : Heap) (array : Loc) : Heap * Loc :=
  let '(h1, shuffled) := spread h array in
  let len := length (default [] (h1 !! shuffled)) in
  (shuffle_loop random calls (len - 1) h1 shuffled, shuffled).

(** *** Component state *)

(** Which of the two navigation callbacks scheduled a timeout. *)
Inductive Nav := Forward | Backward.

(** A pending [setTimeout(..., 1000)] callback with what its closure
    captured: [next] (or [prev]) and [photos.length]. *)
Record Timeout := {
  scheduledBy : Nav;
  target : nat;
  capturedLength : nat
}.

(** An [extractExifData] promise that has not settled yet.  The source keeps
    nothing about it; [issuedFor] records the value of [currentIndex] when the
    effect ran. *)
Record ExifRequest := {
  issuedFor : nat;
  requestedUrl : option string
}.

(** The props that decide what follows: [config.shuffleMode] and
    [config.exifDisplay.enabled]. *)
Record Props := {
  shuffleMode : bool;
  exifEnabled : bool
}.

(** The [useState] cells of the component, the timeouts that are pending
    (oldest first: all have the same delay) and the metadata requests in
    flight. *)
Record State := {
  photos : list string;
  currentIndex : nat;
  nextIndex : nat;
  isTransitioning : bool;
  exifData : JS.Value;
  isLoading : bool;
  error : option string;
  isPaused : bool;
  timeouts : list Timeout;
  exifRequests : list ExifRequest
}.

Definition initialState : State := {|
  photos := [];
  currentIndex := 0;
  nextIndex := 1;
  isTransitioning := false;
  exifData := JS.Null;
  isLoading := true;
  error := None;
  isPaused := false;
  timeouts := [];
  exifRequests := []
|}.

Definition setPhotos (l : list string) (s : State) : State :=
  {| photos := l; currentIndex := currentIndex s; nextIndex := nextIndex s;
     isTransitioning := isTransitioning s; exifData := exifData s;
     isLoading := isLoading s; error := error s; isPaused := isPaused s;
     timeouts := timeouts s; exifRequests := exifRequests s |}.

Definition setCurrentIndex (i : nat) (s : State) : State :=
  {| photos := photos s; currentIndex := i; nextIndex := nextIndex s;
     isTransitioning := isTransitioning s; exifData := exifData s;
     isLoading := isLoading s; error := error s; isPaused := isPaused s;
     timeouts := timeouts s; exifRequests := exifRequests s |}.

Definition setNextIndex (i : nat) (s : State) : State :=
  {| photos := photos s; currentIndex := currentIndex s; nextIndex := i;
     isTransitioning := isTransitioning s; exifData := exifData s;
     isLoading := isLoading s; error := error s; isPaused := isPaused s;
     timeouts := timeouts s; exifRequests := exifRequests s |}.

Definition setIsTransitioning (b : bool) (s : State) : State :=
  {| photos := photos s; currentIndex := currentIndex s; nextIndex := nextIndex s;
     isTransitioning := b; exifData := exifData s;
     isLoading := isLoading s; error := error s; isPaused := isPaused s;
     timeouts := timeouts s; exifRequests := exifRequests s |}.

Definition setExifData (d : JS.Value) (s : State) : State :=
  {| photos := photos s; currentIndex := currentIndex s; nextIndex := nextIndex s;
     isTransitioning := isTransitioning s; exifData := d;
     isLoading := isLoading s; error := error s; isPaused := isPaused s;
     timeouts := timeouts s; exifRequests := exifRequests s |}.

Definition setIsLoading (b : bool) (s : State) : State :=
  {| photos := photos s; currentIndex := currentIndex s; nextIndex := nextIndex s;
     isTransitioning := isTransitioning s; exifData := exifData s;
     isLoading := b; error := error s; isPaused := isPaused s;
     timeouts := timeouts s; exifRequests := exifRequests s |}.

Definition setError (e : option string) (s : State) : State :=
  {| photos := photos s; currentIndex := currentIndex s; nextIndex := nextIndex s;
     isTransitioning := isTransitioning s; exifData := exifData s;
     isLoading := isLoading s; error := e; isPaused := isPaused s;
     timeouts := timeouts s; exifRequests := exifRequests s |}.

Definition setIsPaused (b : bool) (s : State) : State :=
  {| photos := photos s; currentIndex := currentIndex s; nextIndex := nextIndex s;
     isTransitioning := isTransitioning s; exifData := exifData s;
     isLoading := isLoading s; error := error s; isPaused := b;
     timeouts := timeouts s; exifRequests := exifRequests s |}.

Definition withTimeouts (ts : list Timeout) (s : State) : State :=
  {| photos := photos s; currentIndex := currentIndex s; nextIndex := nextIndex s;
     isTransitioning := isTransitioning s; exifData := exifData s;
     isLoading := isLoading s; error := error s; isPaused := isPaused s;
     timeouts := ts; exifRequests := exifRequests s |}.

Definition withExifRequests (rs : list ExifRequest) (s : State) : State :=
  {| photos := photos s; currentIndex := currentIndex s; nextIndex := nextIndex s;
     isTransitioning := isTransitioning s; exifData := exifData s;
     isLoading := isLoading s; error := error s; isPaused := isPaused s;
     timeouts := timeouts s; exifRequests := rs |}.

(** [setTimeout(callback, 1000)] *)
Definition setTimeout (t : Timeout) (s : State) : State :=
  withTimeouts (timeouts s ++ [t]) s.

(** *** Navigation *)

Definition goToNextPhoto (s : State) : State :=
  if length (photos s) =? 0 then s
  else
    let next := (currentIndex s + 1) mod length (photos s) in
    setTimeout {| scheduledBy := Forward; target := next;
                  capturedLength := length (photos s) |}
      (setNextIndex next (setIsTransitioning true s)).

Definition goToPreviousPhoto (s : State) : State :=
  if (length (photos s) =? 0) || isTransitioning s then s
  else
    let prev := if currentIndex s =? 0 then length (photos s) - 1
                else currentIndex s - 1 in
    setTimeout {| scheduledBy := Backward; target := prev;
                  capturedLength := length (photos s) |}
      (setNextIndex prev (setIsTransitioning true s)).

Definition togglePause (s : State) : State := setIsPaused (negb (isPaused s)) s.

(** The callback both navigation functions hand to [setTimeout].  Both
    return before scheduling it when the list is empty, so the length a
    scheduled callback has captured is at least 1 and [%] is the remainder. *)
Definition transitionDone (t : Timeout) (s : State) : State :=
  setIsTransitioning false
    (setNextIndex ((target t + 1) mod capturedLength t)
      (setCurrentIndex (target t) s)).

(** The oldest pending timeout fires. *)
Definition timeoutFires (s : State) : State :=
  match timeouts s with
  | [] => s
  | t :: rest => transitionDone t (withTimeouts rest s)
  end.

(** Every pending timeout fires, in the order they were scheduled. *)
Definition settle (s : State) : State :=
  fold_left (fun s' t => transitionDone t s') (timeouts s) (withTimeouts [] s).

(** [handleKeyPress] *)
Definition handleKeyPress (key : string) (s : State) : State :=
  if String.eqb key "ArrowRight" || String.eqb key "MediaTrackNext" then goToNextPhoto s
  else if String.eqb key "ArrowLeft" || String.eqb key "MediaTrackPrevious"
       then goToPreviousPhoto s
  else if String.eqb key " " || String.eqb key "Enter" || String.eqb key "MediaPlayPause"
       then togglePause s
  else s.

(** The auto-advance effect arms its interval only when its guard passes; a
    tick of that interval calls [goToNextPhoto]. *)
Definition intervalTick (s : State) : State :=
  if (length (photos s) =? 0) || isPaused s || isTransitioning s then s
  else goToNextPhoto s.

(** *** Metadata refresh *)

(** The effect on [[photos, currentIndex, config.exifDisplay.enabled]]:
    [loadExifData()] is started for [photos[currentIndex]]. *)
Definition exifEffect (p : Props) (s : State) : State :=
  if (length (photos s) =? 0) || negb (exifEnabled p) then s
  else withExifRequests
         (exifRequests s ++ [{| issuedFor := currentIndex s;
                                requestedUrl := photos s !! currentIndex s |}]) s.

(** The rest of [loadExifData] once [extractExifData] has settled:
    [setExifData(data)], or [setExifData(null)] in the catch block. *)
Definition loadExifData_settled (outcome : JS.Result JS.Value) (s : State) : State :=
  match outcome with
  | JS.Ok data => setExifData data s
  | JS.Throw _ => setExifData JS.Null s
  end.

(** The [k]-th request in flight settles. *)
Definition exifSettles (k : nat) (outcome : JS.Result JS.Value) (s : State) : State :=
  match exifRequests s !! k with
  | None => s
  | Some _ => loadExifData_settled outcome (withExifRequests (delete k (exifRequests s)) s)
  end.

(** *** Loading *)

(** [loadPhotos], given how the photo source settled ([fetchPhotos] or
    [fetchMockPhotos]): the array it resolved with lives on the heap. *)
Definition loadPhotos (p : Props) (random : nat -> Random) (calls : nat)
    (h : Heap) (fetched : JS.Result Loc) (s : State) : Heap * State :=
  let s := setError None (setIsLoading true s) in
  match fetched with
  | JS.Throw err =>
      (h, setIsLoading false
            (setError (Some ("Error loading photos: " +:+ JS.message err)) s))
  | JS.Ok photoList =>
      if length (default [] (h !! photoList)) =? 0 then
        (h, setIsLoading false
              (setError
                 (Some "No photos found. Press MENU to configure S3 or add mock photos.") s))
      else
        let '(h', finalPhotoList) :=
          if shuffleMode p then
            let '(h1, copy) := spread h photoList in
            shuffleArray random calls h1 copy
          else (h, photoList) in
        (h', exifEffect p
               (setIsLoading false (setPhotos (default [] (h' !! finalPhotoList)) s)))
  end.

(** *** Events *)

Inductive Event :=
| KeyDown (key : string)
| IntervalTick
| TimeoutFires
| ExifSettles (k : nat) (outcome : JS.Result JS.Value).

Definition handle (e : Event) (s : State) : State :=
  match e with
  | KeyDown key => handleKeyPress key s
  | IntervalTick => intervalTick s
  | TimeoutFires => timeoutFires s
  | ExifSettles k outcome => exifSettles k outcome s
  end.

(** One event, then the effects that depend on [currentIndex]. *)
Definition step (p : Props) (s : State) (e : Event) : State :=
  let s' := handle e s in
  if currentIndex s' =? currentIndex s then s' else exifEffect p s'.

Definition run (p : Props) (s : State) (es : list Event) : State :=
  fold_left (step p) es s.

(** *** Vocabulary of the playback properties *)

(** The exchanges of [shuffle_loop] from index [i] down stay within the
    array [a]: each has [j <= i < a.length]. *)
Fixpoint exchangesInRange (random : nat -> Random) (calls i : nat)
    (a : list string) : Prop :=
  match i with
  | 0 => True
  | S i' =>
      let j := floor_mul (random calls) (i + 1) in
      (j <= i /\ i < length a)
      /\ exchangesInRange random (S calls) i' (swap a i j)
  end.

(** The state in which a freshly mounted component is left once [loadPhotos]
    has stored the list [l]. *)
Definition ready (p : Props) (l : list string) : State :=
  exifEffect p (setIsLoading false (setPhotos l initialState)).

(** "next", its transition allowed to complete. *)
Definition nextAndComplete (s : State) : State := settle (goToNextPhoto s).

Definition isNextKey (key : string) : bool :=
  String.eqb key "ArrowRight" || String.eqb key "MediaTrackNext".

(** The target of a backward move from index [i] in a list of length [n]. *)
Definition backwardTarget (n i : nat) : nat := if i =? 0 then n - 1 else i - 1.

(** An event arrives outside a transition, or is not the "next" key. *)
Definition outsideTransition (e : Event) (s : State) : Prop :=
  match e with
  | KeyDown key => isNextKey key = true -> isTransitioning s = false
  | _ => True
  end.

(** The states of a session on the list [l]: any events in any order. *)
Inductive reachable (p : Props) (l : list string) : State -> Prop :=
| reachable_ready : reachable p l (ready p l)
| reachable_step s e : reachable p l s -> reachable p l (step p s e).

(** The same, when no "next" key arrives during a transition. *)
Inductive reachableInTurn (p : Props) (l : list string) : State -> Prop :=
| inTurn_ready : reachableInTurn p l (ready p l)
| inTurn_step s e :
    reachableInTurn p l s -> outsideTransition e s -> reachableInTurn p l (step p s e).

(** What holds of the playback state between events that arrive in turn:
    no transition and no timeout pending, or one transition with its one
    timeout, whose target [nextIndex] holds. *)
Definition inTurnInv (l : list string) (s : State) : Prop :=
  photos s = l
  /\ currentIndex s < length l
  /\ ((isTransitioning s = false /\ timeouts s = []
       /\ nextIndex s = (currentIndex s + 1) mod length l)
      \/ (isTransitioning s = true
          /\ exists t, timeouts s = [t]
               /\ capturedLength t = length l
               /\ nextIndex s = target t
               /\ target t = match scheduledBy t with
                             | Forward => (currentIndex s + 1) mod length l
                             | Backward => backwardTarget (length l) (currentIndex s)
                             end)).

(** What holds whatever the order of events. *)
Definition anyOrderInv (l : list string) (s : State) : Prop :=
  photos s = l
  /\ Forall (fun t => capturedLength t = length l) (timeouts s)
  /\ (nextIndex s = (currentIndex s + 1) mod length l
      \/ Exists (fun t => scheduledBy t = Backward) (timeouts s)).

(** *** Sample data: the list [A, B, C] of the specification's scenario *)

Definition sampleProps : Props :=
  {| shuffleMode := false; exifEnabled := true |}.
Definition shufflingProps : Props :=
  {| shuffleMode := true; exifEnabled := true |}.
Definition samplePhotos : list string := ["A.jpg"; "B.jpg"; "C.jpg"].
(** Values of [Math.random()]: 1/4 first, 1/2 ever after. *)
Definition sampleRandom (call : nat) : Random :=
  match call with
  | 0 => {| num := 1; den := 4; in_unit_interval := eq_refl |}
  | _ => {| num := 1; den := 2; in_unit_interval := eq_refl |}
  end.
Definition singlePhoto : list string := ["A.jpg"].
Definition sampleRecord : JS.Value :=
  JS.Object [("dateTime", JS.String "2023:07:14 09:30:00"); ("make", JS.String "Canon")].

(** *** More vocabulary: backward steps, events that are no keys, ranges *)

(** "previous", its transition allowed to complete. *)
Definition previousAndComplete (s : State) : State := settle (goToPreviousPhoto s).

Definition isKeyDown (e : Event) : bool :=
  match e with
  | KeyDown _ => true
  | _ => false
  end.

(** Every index the state holds or will hold is an index of the list [l],
    and every request in flight asks for the photo at the index it was
    issued for. *)
Definition inRangeInv (l : list string) (s : State) : Prop :=
  photos s = l
  /\ currentIndex s < length l
  /\ (2 <= length l -> nextIndex s < length l)
  /\ Forall (fun t => target t < length l /\ capturedLength t = length l) (timeouts s)
  /\ Forall (fun r => requestedUrl r = l !! issuedFor r /\ issuedFor r < length l)
       (exifRequests s).

End Slideshow.

(** ** configService.js: the settings store *)

Module ConfigService.
Import JS.

Definition CONFIG_KEY : string := "tv-slideshow-config".
Definition CONFIG_VERSION : string := "1.0".

(** [localStorage]: access may be denied (every call throws), and a write may
    exceed the quota. *)
Record Storage := {
  accessible : bool;
  quotaExceeded : bool;
  items : gmap string string
}.

Definition getItem (st : Storage) (key : string) : Result (option string) :=
  if accessible st then Ok (items st !! key)
  else Throw (DOMException "The operation is insecure.").

Definition setItem (st : Storage) (key value : string) : Result Storage :=
  if negb (accessible st) then Throw (DOMException "The operation is insecure.")
  else if quotaExceeded st then Throw (DOMException "The quota has been exceeded.")
  else Ok {| accessible := accessible st; quotaExceeded := quotaExceeded st;
             items := <[key := value]> (items st) |}.

(** [return oldConfig.data || oldConfig] *)
Definition migrateConfig (oldConfig : Value) : Result Value :=
  data ← get oldConfig "data";
  Ok (or data oldConfig).

Definition loadConfig `{Builtins} (st : Storage) : Result Value :=
  try_catch
    (storedConfig ← getItem st CONFIG_KEY;
     match storedConfig with
     | None => Ok Null
     | Some text =>
         if String.eqb text "" then Ok Null
         else
           config ← JSON_parse text;
           version ← get config "version";
           if negb (strict_eq_string version CONFIG_VERSION) then migrateConfig config
           else get config "data"
     end)
    (fun _ => Ok Null).

(** [now] is [new Date().toISOString()]. *)
Definition saveConfig `{Builtins} (now : string) (config : Value) (st : Storage)
  : Result Storage :=
  try_catch
    (let configWrapper :=
       Object [("version", String CONFIG_VERSION); ("data", config);
               ("savedAt", String now)] in
     setItem st CONFIG_KEY (JSON_stringify configWrapper))
    (fun _ => Throw (Error "Failed to save configuration")).




(** *** The save path: Settings.handleSubmit, then App.handleSaveConfig *)

(** What the user sees of a submit: the storage afterwards and the alerts
    shown. *)
Record Submitted := {
  storage : Storage;
  alerts : list string
}.

(** [App.handleSaveConfig]: [saveConfig], an alert when it throws. *)
Definition handleSaveConfig `{Builtins} (now : string) (newConfig : Value) (st : Storage)
  : Result Submitted :=
  try_catch
    (st' ← saveConfig now newConfig st;
     Ok {| storage := st'; alerts := [] |})
    (fun _ => Ok {| storage := st; alerts := ["Failed to save configuration"] |}).

(** [Settings.handleSubmit] with [onSave = handleSaveConfig]. *)
Definition handleSubmit `{Builtins} (now : string) (formData : Value) (st : Storage)
  : Result Submitted :=
  bucket ← get formData "s3Bucket";
  region ← (if truthy bucket then get formData "s3Region" else Ok Undefined);
  if negb (truthy bucket) || negb (truthy region) then
    Ok {| storage := st; alerts := ["S3 Bucket Name and Region are required"] |}
  else handleSaveConfig now formData st.

(** *** Sample data *)


(** The same with a duration in range and the effect the settings form
    offers for sliding. *)
Definition slideTransitionConfig : Value :=
  Object [("s3Bucket", String "family-photos"); ("s3Region", String "us-east-1");
          ("displayDuration", Number (Fin 10));
          ("transitionEffect", String "slide-transition")].



Definition savedBefore : Storage :=
  {| accessible := true; quotaExceeded := false;
     items := {[ CONFIG_KEY := "previously saved" ]} |}.

(** A blob saved by an earlier version, and the text it is stored as (the
    text itself does not matter to the properties: [sampleBuiltins] parses
    it to the blob). *)
Definition legacyData : Value :=
  Object [("s3Bucket", String "family-photos"); ("s3Region", String "eu-west-1")].
Definition legacyBlob : Value :=
  Object [("version", String "0.9"); ("data", legacyData)].
Definition legacyText : string := "legacy blob, version 0.9".

(** A runtime for the samples: its JSON parser knows [legacyText] and the
    text [42], and rejects every other text. *)
Definition sampleBuiltins : Builtins := {|
  StringToNumber := fun _ => NaN;
  ObjectToNumber := fun _ => NaN;
  trim := fun s => s;
  toFixed := fun _ _ => "0.0";
  NumberToString := fun _ => "0";
  ToString := fun _ => "[object Object]";
  JSON_parse := fun text =>
    if String.eqb text legacyText then Ok legacyBlob
    else if String.eqb text "42" then Ok (Number (Fin 42))
    else Throw (SyntaxError "Unexpected token");
  JSON_stringify := fun _ => "{}"
|}.

Definition legacyStorage : Storage :=
  {| accessible := true; quotaExceeded := false;
     items := {[ CONFIG_KEY := legacyText ]} |}.

(** *** Clearing *)

Definition removeItem (st : Storage) (key : string) : Result Storage :=
  if accessible st then
    Ok {| accessible := accessible st; quotaExceeded := quotaExceeded st;
          items := delete key (items st) |}
  else Throw (DOMException "The operation is insecure.").

Definition clearConfig (st : Storage) : Result Storage :=
  try_catch (removeItem st CONFIG_KEY)
    (fun _ => Throw (Error "Failed to clear configuration")).

(** The blob [saveConfig] writes for [config] at the instant [now]. *)
Definition wrapperOf (now : string) (config : Value) : Value :=
  Object [("version", String CONFIG_VERSION); ("data", config);
          ("savedAt", String now)].

(** A runtime for the round-trip sample: it serialises every value to one
    text and parses that text to the wrapper of [slideTransitionConfig]. *)
Definition sampleInstant : string := "2024-05-01T10:00:00.000Z".
Definition echoBuiltins : Builtins := {|
  StringToNumber := fun _ => NaN;
  ObjectToNumber := fun _ => NaN;
  trim := fun s => s;
  toFixed := fun _ _ => "0.0";
  NumberToString := fun _ => "0";
  ToString := fun _ => "[object Object]";
  JSON_parse := fun text =>
    if String.eqb text "serialised wrapper"
    then Ok (wrapperOf sampleInstant slideTransitionConfig)
    else Throw (SyntaxError "Unexpected token");
  JSON_stringify := fun _ => "serialised wrapper"
|}.

Definition readOnlyStorage : Storage :=
  {| accessible := true; quotaExceeded := true;
     items := {[ CONFIG_KEY := "previously saved" ]} |}.

End ConfigService.

(** ** Settings.jsx: the form and the constraints its controls declare *)

Module SettingsForm.
Import Stdlib.Strings.Ascii JS ConfigService.

Inductive FieldType := text | number | select | checkbox.

(** An entry of the [fields] table, without its label. *)
Record Field := {
  name : string;
  type : FieldType;
  required : bool;
  min : option Q;
  max : option Q;
  options : list string
}.

Definition fields : list Field := [
  {| name := "s3Bucket"; type := text; required := true;
     min := None; max := None; options := [] |};
  {| name := "s3Region"; type := text; required := true;
     min := None; max := None; options := [] |};
  {| name := "s3Prefix"; type := text; required := false;
     min := None; max := None; options := [] |};
  {| name := "displayDuration"; type := number; required := false;
     min := Some 3%Q; max := Some 300%Q; options := [] |};
  {| name := "transitionEffect"; type := select; required := false;
     min := None; max := None; options := ["fade"; "slide-transition"; "zoom"] |};
  {| name := "shuffleMode"; type := checkbox; required := false;
     min := None; max := None; options := [] |};
  {| name := "exifDisplay.enabled"; type := checkbox; required := false;
     min := None; max := None; options := [] |};
  {| name := "exifDisplay.showDateTime"; type := checkbox; required := false;
     min := None; max := None; options := [] |};
  {| name := "exifDisplay.showLocation"; type := checkbox; required := false;
     min := None; max := None; options := [] |};
  {| name := "exifDisplay.showCameraInfo"; type := checkbox; required := false;
     min := None; max := None; options := [] |};
  {| name := "exifDisplay.position"; type := select; required := false;
     min := None; max := None;
     options := ["bottom-left"; "bottom-right"; "top-left"; "top-right";
                 "bottom-center"] |};
  {| name := "exifDisplay.style"; type := select; required := false;
     min := None; max := None;
     options := ["style-modern-blur"; "style-minimal"; "style-rounded-box";
                 "style-film-strip"; "style-corner-tag"] |};
  {| name := "exifDisplay.autoHide"; type := checkbox; required := false;
     min := None; max := None; options := [] |};
  {| name := "exifDisplay.autoHideDelay"; type := number; required := false;
     min := Some 1%Q; max := Some 60%Q; options := [] |}
].

(** [name.split('.')] *)
Fixpoint split_dots (name : string) : list string :=
  match name with
  | EmptyString => [EmptyString]
  | String.String c rest =>
      if Ascii.eqb c "."%char then EmptyString :: split_dots rest
      else match split_dots rest with
           | [] => [String.String c EmptyString]
           | key :: keys => String.String c key :: keys
           end
  end.

(** [getValue(name)]: [value = value?.[key]] for each key of the name. *)
Definition getValue (formData : Value) (name : string) : Value :=
  fold_left (fun value key =>
               match get value key with
               | Ok v => v
               | Throw _ => Undefined
               end)
            (split_dots name) formData.

(** What the browser makes of the text of a number input: the number the
    text denotes, and NaN when the text is not a valid floating-point number
    (the empty text among them; the control then holds no value). *)
Class Browser := valueAsNumber : string -> Num.

(** [min <= n] and [n <= max] where the attribute is present. *)
Definition not_below (bound : option Q) (n : Num) : bool :=
  match bound with
  | Some m => num_le (Fin m) n
  | None => true
  end.

Definition not_above (bound : option Q) (n : Num) : bool :=
  match bound with
  | Some m => num_le n (Fin m)
  | None => true
  end.

(** The default [step] of a number input is 1, counted from [min]. *)
Definition on_step (bound : option Q) (n : Num) : bool :=
  match n with
  | Fin q =>
      let base := default 0%Q bound in
      Qeq_bool (inject_Z (Qfloor (q - base))) (q - base)
  | _ => false
  end.

(** The control [renderField] draws for a field, as the browser's
    constraint validation sees it: [value={value || ''}] with the attributes
    [required], [min] and [max].  A select and a checkbox carry no
    constraint. *)
Definition satisfiesConstraints `{Builtins} `{Browser} (formData : Value)
    (field : Field) : bool :=
  let shown := to_string (or (getValue formData (name field)) (String "")) in
  match type field with
  | text => negb (required field && String.eqb shown "")
  | number =>
      match valueAsNumber shown with
      | NaN => negb (required field)
      | n => not_below (min field) n && not_above (max field) n
             && on_step (min field) n
      end
  | select | checkbox => true
  end.

(** A press on Save.  The form has no [noValidate]: the browser fires
    [submit], and so runs [handleSubmit], only when every control satisfies
    its constraints; otherwise it points at the first invalid control and
    nothing else happens. *)
Definition requestSubmit `{Builtins} `{Browser} (now : string) (formData : Value)
    (st : Storage) : Result Submitted :=
  if forallb (satisfiesConstraints formData) fields then handleSubmit now formData st
  else Ok {| storage := st; alerts := [] |}.


(** *** Sample data *)

(** A runtime that prints whole numbers in decimal, and a browser that
    reads the texts 10 and 500. *)
Definition decimalBuiltins : Builtins := {|
  StringToNumber := fun _ => NaN;
  ObjectToNumber := fun _ => NaN;
  trim := fun s => s;
  toFixed := fun _ _ => "0.0";
  NumberToString := fun _ => "0";
  ToString := fun v =>
    match v with
    | Number (Fin q) => pretty (Qfloor q)
    | _ => "[object Object]"
    end;
  JSON_parse := fun _ => Throw (SyntaxError "Unexpected token");
  JSON_stringify := fun _ => "{}"
|}.

Definition sampleBrowser : Browser := fun shown =>
  if String.eqb shown "500" then Fin 500
  else if String.eqb shown "10" then Fin 10
  else NaN.

End SettingsForm.

(** ** exifUtils.js: the metadata extractor *)

Module ExifUtils.
Import JS.

Abbreviation Blob := (list Byte.byte).

(** A [fetch] response: its [ok] flag and how [json()] and [blob()] settle. *)
Record Response := {
  ok : bool;
  json : Result Value;
  blob : Result Blob
}.

(** The world outside the program: the image host, the [exifr] parser and
    the Nominatim service.  The reverse-geocoding URL is a function of the
    two coordinates, so that request is keyed by them. *)
Class World := {
  fetch : string -> Result Response;
  exifr_parse : Blob -> Result Value;
  fetch_reverse : Value -> Value -> Result Response
}.

(** [v?.trim()] *)
Definition optional_trim `{Builtins} (v : Value) : Result Value :=
  match v with
  | Undefined | Null => Ok Undefined
  | String s => Ok (String (trim s))
  | Bool _ | Number _ | Object _ => Throw (TypeError "trim is not a function")
  end.

Definition formatExposureTime `{Builtins} `{Division} (exposureTime : Value)
  : Result Value :=
  if negb (truthy exposureTime) then Ok Null
  else if ge exposureTime (Fin 1) then
    match exposureTime with
    | Number n => Ok (String (toFixed n 1))
    | _ => Throw (TypeError "toFixed is not a function")
    end
  else
    let denominator := Math_round (reciprocal (ToNumber exposureTime)) in
    Ok (String ("1/" +:+ NumberToString denominator)).

(** The [if / else if] chain that picks the locality. *)
Definition locality (address : Value) : Result (list Value) :=
  city ← get address "city";
  if truthy city then Ok [city]
  else
    town ← get address "town";
    if truthy town then Ok [town]
    else
      village ← get address "village";
      if truthy village then Ok [village]
      else
        county ← get address "county";
        if truthy county then Ok [county] else Ok [].

Definition getLocationName `{Builtins} `{World} (latitude longitude : Value)
  : Result Value :=
  try_catch
    (response ← fetch_reverse latitude longitude;
     if negb (ok response) then Throw (Error "Geocoding request failed")
     else
       data ← json response;
       found ← get data "address";
       let address := or found (Object []) in
       parts ← locality address;
       state ← get address "state";
       let parts := if truthy state then parts ++ [state] else parts in
       country ← get address "country";
       let parts := if truthy country then parts ++ [country] else parts in
       if 0 <? length parts then Ok (String (join ", " parts)) else Ok Null)
    (fun _ => Ok Null).

Definition extractExifData `{Builtins} `{Division} `{World} (imageUrl : string)
  : Result Value :=
  try_catch
    (response ← fetch imageUrl;
     blob ← blob response;
     exif ← exifr_parse blob;
     if negb (truthy exif) then Ok Null
     else
       DateTimeOriginal ← get exif "DateTimeOriginal";
       DateTime ← get exif "DateTime";
       CreateDate ← get exif "CreateDate";
       latitude ← get exif "latitude";
       longitude ← get exif "longitude";
       GPSAltitude ← get exif "GPSAltitude";
       Make ← get exif "Make";
       make ← optional_trim Make;
       Model ← get exif "Model";
       model ← optional_trim Model;
       LensModel ← get exif "LensModel";
       lensModel ← optional_trim LensModel;
       FNumber ← get exif "FNumber";
       ExposureTime ← get exif "ExposureTime";
       exposureTime ← formatExposureTime ExposureTime;
       ISO ← get exif "ISO";
       FocalLength ← get exif "FocalLength";
       FocalLengthIn35mmFormat ← get exif "FocalLengthIn35mmFormat";
       ImageWidth ← get exif "ImageWidth";
       ImageHeight ← get exif "ImageHeight";
       Orientation ← get exif "Orientation";
       let formattedData :=
         [("dateTime", or (or (or DateTimeOriginal DateTime) CreateDate) Null);
          ("latitude", or latitude Null);
          ("longitude", or longitude Null);
          ("altitude", or GPSAltitude Null);
          ("make", or make Null);
          ("model", or model Null);
          ("lensModel", or lensModel Null);
          ("fNumber", or FNumber Null);
          ("exposureTime", or exposureTime Null);
          ("iso", or ISO Null);
          ("focalLength", or (or FocalLength FocalLengthIn35mmFormat) Null);
          ("width", or ImageWidth Null);
          ("height", or ImageHeight Null);
          ("orientation", or Orientation Null)] in
       if truthy (lookup_prop "latitude" formattedData)
          && truthy (lookup_prop "longitude" formattedData)
       then
         located ←
           try_catch
             (locationName ← getLocationName (lookup_prop "latitude" formattedData)
                                             (lookup_prop "longitude" formattedData);
              Ok (assign_prop "locationName" locationName formattedData))
             (fun _ => Ok (assign_prop "locationName" Null formattedData));
         Ok (Object located)
       else Ok (Object formattedData))
    (fun _ => Ok Null).

(** *** Vocabulary of the extractor's properties, sample data *)

(** The reverse-geocoding lookup fails: the request throws, the response is
    not ok, or its body is not JSON. *)
Definition reverseGeocodingFails `{World} (latitude longitude : Value) : Prop :=
  match fetch_reverse latitude longitude with
  | Throw _ => True
  | Ok response => ok response = false \/ exists e, json response = Throw e
  end.

(** The types [exifr] delivers: a text tag is a string or absent. *)
Definition textOrAbsent (v : Value) : bool :=
  match v with
  | Undefined | Null | String _ => true
  | Bool _ | Number _ | Object _ => false
  end.

(** ... and the exposure time is a number or absent. *)
Definition numberOrAbsent (v : Value) : bool :=
  match v with
  | Undefined | Null | Number _ => true
  | Bool _ | String _ | Object _ => false
  end.

Definition textTagsTyped (tags : list (string * Value)) : bool :=
  textOrAbsent (lookup_prop "Make" tags)
  && textOrAbsent (lookup_prop "Model" tags)
  && textOrAbsent (lookup_prop "LensModel" tags).

Definition tagsTyped (tags : list (string * Value)) : bool :=
  textTagsTyped tags && numberOrAbsent (lookup_prop "ExposureTime" tags).

(** A photo taken in Paris, while the geocoding service cannot be reached. *)
Definition parisTags : Value :=
  Object [("DateTimeOriginal", String "2023:07:14 09:30:00");
          ("latitude", Number (Fin (488566 # 10000)));
          ("longitude", Number (Fin (23522 # 10000)));
          ("Make", String "Canon"); ("Model", String "EOS R6")].

Definition offlineGeocoder : World := {|
  fetch := fun _ => Ok {| ok := true; json := Throw (SyntaxError "Unexpected token");
                          blob := Ok [] |};
  exifr_parse := fun _ => Ok parisTags;
  fetch_reverse := fun _ _ => Throw (TypeError "Failed to fetch")
|}.

(** A photo taken on the equator, north of Quito, while the geocoding
    service cannot be reached. *)
Definition equatorTags : Value :=
  Object [("DateTimeOriginal", String "2023:07:14 09:30:00");
          ("latitude", Number (Fin 0));
          ("longitude", Number (Fin (-(784558 # 10000))));
          ("Make", String "Canon"); ("Model", String "EOS R6")].

Definition offlineGeocoderAtEquator : World := {|
  fetch := fun _ => Ok {| ok := true; json := Throw (SyntaxError "Unexpected token");
                          blob := Ok [] |};
  exifr_parse := fun _ => Ok equatorTags;
  fetch_reverse := fun _ _ => Throw (TypeError "Failed to fetch")
|}.

(** The samples carry no exposure time: nothing is divided. *)
Definition noDivision : Division := fun _ => NaN.

(** *** Grouping photos by location *)

(** [calculateDistance(lat1, lon1, lat2, lon2)]: the haversine formula on
    floating-point sines and cosines is taken as given; it returns a
    number. *)
Class Haversine := calculateDistance : Value -> Value -> Value -> Value -> Num.

Record Group := {
  latitude : Value;
  longitude : Value;
  locationName : Value;
  photos : list Value
}.

(** [photo.exif?.k] *)
Definition exif_field (photo : Value) (k : string) : Result Value :=
  exif ← get photo "exif";
  match exif with
  | Undefined | Null => Ok Undefined
  | _ => get exif k
  end.

(** The [for (const group of groups)] loop: the photo is pushed to the first
    group within the radius, if there is one. *)
Fixpoint push_to_nearby `{Builtins} `{Haversine} (radiusKm photo lat lon : Value)
    (groups : list Group) : option (list Group) :=
  match groups with
  | [] => None
  | group :: rest =>
      let distance := calculateDistance lat lon (latitude group) (longitude group) in
      if num_le distance (ToNumber radiusKm) then
        Some ({| latitude := latitude group; longitude := longitude group;
                 locationName := locationName group;
                 photos := photos group ++ [photo] |} :: rest)
      else cons group <$> push_to_nearby radiusKm photo lat lon rest
  end.

(** The callback of [photos.forEach]. *)
Definition place_photo `{Builtins} `{Haversine} (radiusKm : Value)
    (groups : list Group) (photo : Value) : Result (list Group) :=
  lat ← exif_field photo "latitude";
  if negb (truthy lat) then Ok groups
  else
    lon ← exif_field photo "longitude";
    if negb (truthy lon) then Ok groups
    else
      match push_to_nearby radiusKm photo lat lon groups with
      | Some groups' => Ok groups'
      | None =>
          exif ← get photo "exif";
          name ← get exif "locationName";
          Ok (groups ++ [{| latitude := lat; longitude := lon;
                            locationName := name; photos := [photo] |}])
      end.

Fixpoint forEach_place `{Builtins} `{Haversine} (radiusKm : Value)
    (remaining : list Value) (groups : list Group) : Result (list Group) :=
  match remaining with
  | [] => Ok groups
  | photo :: rest =>
      groups' ← place_photo radiusKm groups photo;
      forEach_place radiusKm rest groups'
  end.

(** [radiusKm = 1] when the argument is missing. *)
Definition groupPhotosByLocation `{Builtins} `{Haversine} (photoList : list Value)
    (radiusKm : Value) : Result (list Group) :=
  let radiusKm := match radiusKm with
                  | Undefined => Number (Fin 1)
                  | _ => radiusKm
                  end in
  forEach_place radiusKm photoList [].

(** A photo that [groupPhotosByLocation] does not skip: both coordinates are
    truthy. *)
Definition located (photo : Value) : bool :=
  match exif_field photo "latitude", exif_field photo "longitude" with
  | Ok lat, Ok lon => truthy lat && truthy lon
  | _, _ => false
  end.

(** A group is headed by a photo whose coordinates the group carries. *)
Definition headed (group : Group) : Prop :=
  exists first others,
    photos group = first :: others
    /\ exif_field first "latitude" = Ok (latitude group)
    /\ exif_field first "longitude" = Ok (longitude group).

(** Sample: distances on the equator in whole degrees (111 km each), and
    three photos, two of them on the same spot. *)
Definition degreesApart : Haversine := fun lat1 lon1 lat2 lon2 =>
  match lon1, lon2 with
  | Number (Fin a), Number (Fin b) => Fin (111 * Qabs (a - b))
  | _, _ => NaN
  end.
Definition photoAt (name : string) (lat lon : Q) : Value :=
  Object [("url", String name);
          ("exif", Object [("latitude", Number (Fin lat));
                           ("longitude", Number (Fin lon))])].
Definition tripPhotos : list Value :=
  [photoAt "quito-1.jpg" 1 10; Object [("url", String "scan.jpg")];
   photoAt "macapa.jpg" 1 40; photoAt "quito-2.jpg" 1 10].

(** A runtime for the samples that prints whole numbers in decimal. *)
Definition wholeNumbers : Builtins := {|
  StringToNumber := fun _ => NaN;
  ObjectToNumber := fun _ => NaN;
  trim := fun s => s;
  toFixed := fun _ _ => "0.0";
  NumberToString := fun n =>
    match n with
    | Fin q => pretty (Qfloor q)
    | NaN => "NaN"
    | Inf negative => if negative then "-Infinity" else "Infinity"
    end;
  ToString := fun _ => "[object Object]";
  JSON_parse := fun _ => Throw (SyntaxError "Unexpected token");
  JSON_stringify := fun _ => "{}"
|}.

(** The geocoding service answering for Paris. *)
Definition parisAddress : Value :=
  Object [("address",
           Object [("city", String "Paris"); ("town", String "Montmartre");
                   ("state", String "Ile-de-France"); ("country", String "France")])].
Definition onlineGeocoder : World := {|
  fetch := fun _ => Ok {| ok := true; json := Throw (SyntaxError "Unexpected token");
                          blob := Ok [] |};
  exifr_parse := fun _ => Ok parisTags;
  fetch_reverse := fun _ _ => Ok {| ok := true; json := Ok parisAddress; blob := Ok [] |}
|}.

End ExifUtils.

(** ** App.jsx: configuration at start-up, the two views *)

Module App.
Import JS ConfigService.

Definition DEFAULT_CONFIG : Value :=
  Object [("s3Bucket", String ""); ("s3Region", String "us-east-1");
          ("s3Prefix", String ""); ("displayDuration", Number (Fin 10));
          ("transitionEffect", String "fade"); ("shuffleMode", Bool false);
          ("exifDisplay",
           Object [("enabled", Bool true); ("showDateTime", Bool true);
                   ("showLocation", Bool true); ("showCameraInfo", Bool false);
                   ("position", String "bottom-left");
                   ("style", String "style-modern-blur");
                   ("autoHide", Bool false); ("autoHideDelay", Number (Fin 5))])].

(** The code units of a string, each as a string of its own: what spreading
    a string into an object enumerates. *)
Class CodeUnits := code_units : string -> list string.

(** The own enumerable properties a spread copies: those of an object, the
    indexed code units of a string, none of any other value. *)
Definition own_props `{CodeUnits} (v : Value) : list (string * Value) :=
  match v with
  | Object props => props
  | String s => imap (fun i c => (pretty i, String c)) (code_units s)
  | Undefined | Null | Bool _ | Number _ => []
  end.

Definition copy_props (target source : list (string * Value)) : list (string * Value) :=
  fold_left (fun acc kv => assign_prop kv.1 kv.2 acc) source target.

(** [{ ...a, ...b }] *)
Definition spread2 `{CodeUnits} (a b : Value) : Value :=
  Object (copy_props (copy_props [] (own_props a)) (own_props b)).

(** [loadConfiguration]: the [config] state after the effect has run, given
    the state [config] it started from. *)
Definition loadConfiguration `{Builtins} `{CodeUnits} (st : Storage) (config : Value)
  : Value :=
  match loadConfig st with
  | Ok savedConfig =>
      if truthy savedConfig then spread2 DEFAULT_CONFIG savedConfig else config
  | Throw _ => config
  end.

Definition asciiCodeUnits : CodeUnits :=
  fun s => (fun c => String.String c EmptyString) <$> String.list_ascii_of_string s.

End App.

(** ** useKeyboardNavigation.js and the views of App.jsx *)

Module KeyboardNavigation.
Import JS.

(** What the two listeners read of a [keydown] event. *)
Record KeyEvent := {
  key : string;
  keyCode : N;
  keyName : Value;
  tagName : string
}.

(** [window.webOS] and [window.tizen], as truth values. *)
Record Platform := {
  webOS : bool;
  tizen : bool
}.

(** Which callbacks the caller of the hook passed. *)
Record Handlers := {
  onMenu : bool;
  onBack : bool;
  onPlay : bool;
  onPause : bool
}.

Inductive Callback := Menu | Back | Play | Pause.

#[global] Instance Callback_eq_dec : EqDecision Callback.
Proof. solve_decision. Defined.

Definition provided (h : Handlers) (c : Callback) : bool :=
  match c with
  | Menu => onMenu h
  | Back => onBack h
  | Play => onPlay h
  | Pause => onPause h
  end.

(** [if (callback) callback()] *)
Definition call (h : Handlers) (c : Callback) : list Callback :=
  if provided h c then [c] else [].

Definition navigationKeys : list string :=
  ["ArrowUp"; "ArrowDown"; "ArrowLeft"; "ArrowRight"; "Enter"; " "; "Escape";
   "Backspace"].

Definition isMenuKey (e : KeyEvent) : bool :=
  String.eqb (key e) "F1" || String.eqb (key e) "ContextMenu"
  || (keyCode e =? 1001)%N || (keyCode e =? 18)%N.

Definition isBackKey (e : KeyEvent) : bool :=
  String.eqb (key e) "Escape" || String.eqb (key e) "XF86Back"
  || (keyCode e =? 461)%N || (keyCode e =? 10009)%N.

Definition isPlayPauseKey (e : KeyEvent) : bool :=
  String.eqb (key e) " " || String.eqb (key e) "MediaPlayPause"
  || String.eqb (key e) "MediaPlay" || String.eqb (key e) "MediaPause".

(** [handleKeyDown]: whether [preventDefault] was called, and the callbacks
    invoked. *)
Definition handleKeyDown (h : Handlers) (e : KeyEvent) : bool * list Callback :=
  let prevented :=
    existsb (String.eqb (key e)) navigationKeys
    && negb (String.eqb (tagName e) "INPUT") && negb (String.eqb (tagName e) "SELECT") in
  if isMenuKey e then (true, call h Menu)
  else if isBackKey e then (prevented, call h Back)
  else if isPlayPauseKey e then
    (prevented,
     if String.eqb (key e) "MediaPlay" && onPlay h then [Play]
     else if String.eqb (key e) "MediaPause" && onPause h then [Pause]
     else if onPlay h || onPause h then
       (if onPause h then [Pause] else if onPlay h then [Play] else [])
     else [])
  else (prevented, []).

(** [handleTVKey] *)
Definition handleTVKey (pf : Platform) (h : Handlers) (e : KeyEvent) : list Callback :=
  (if webOS pf then
     if (keyCode e =? 461)%N then call h Back
     else if (keyCode e =? 1001)%N then call h Menu
     else []
   else [])
  ++ (if tizen pf then
        if strict_eq_string (keyName e) "Back" || strict_eq_string (keyName e) "Return"
        then call h Back
        else if strict_eq_string (keyName e) "Menu"
                || strict_eq_string (keyName e) "Tools"
        then call h Menu
        else []
      else []).

(** Both listeners are registered on [window], [handleKeyDown] first. *)
Definition keydown (pf : Platform) (h : Handlers) (e : KeyEvent) : list Callback :=
  (handleKeyDown h e).2 ++ handleTVKey pf h e.

(** *** The views of App *)

Inductive View := SlideshowView | SettingsView.

Definition otherView (v : View) : View :=
  match v with
  | SlideshowView => SettingsView
  | SettingsView => SlideshowView
  end.

(** The hook is called with [onMenu] and [onBack] only. *)
Definition appHandlers : Handlers :=
  {| onMenu := true; onBack := true; onPlay := false; onPause := false |}.

(** One call of a callback of App.  Both callbacks read the [view] of the
    render they were created in; [current] is the state their [setView]
    calls have produced so far. *)
Definition invoke (rendered : View) (current : View) (c : Callback) : View :=
  match c with
  | Menu => otherView rendered
  | Back => match rendered with
            | SettingsView => SlideshowView
            | SlideshowView => current
            end
  | Play | Pause => current
  end.

(** The view after one [keydown] event. *)
Definition viewAfter (pf : Platform) (view : View) (e : KeyEvent) : View :=
  fold_left (invoke view) (keydown pf appHandlers e) view.

Definition lgTV : Platform := {| webOS := true; tizen := false |}.
Definition browser : Platform := {| webOS := false; tizen := false |}.
Definition lgMenuButton : KeyEvent :=
  {| key := "Unidentified"; keyCode := 1001%N; keyName := Undefined;
     tagName := "BODY" |}.

(** Backspace typed into a text field. *)
Definition backspaceInInput : KeyEvent :=
  {| key := "Backspace"; keyCode := 8%N; keyName := Undefined; tagName := "INPUT" |}.

End KeyboardNavigation.

(** ** ExifOverlay.jsx: what the overlay shows *)

Module ExifOverlay.
Import JS.

(** [new Date(dateTime).toLocaleString('en-US', ...)], taken as given. *)
Class DateFormat := toLocaleString : Value -> Result string.

(** [Math.abs(v)] *)
Definition Math_abs `{Builtins} (v : Value) : Num :=
  match ToNumber v with
  | NaN => NaN
  | Fin q => Fin (Qabs q)
  | Inf _ => Inf false
  end.

Definition formatDateTime `{DateFormat} (dateTime : Value) : Value :=
  if negb (truthy dateTime) then Null
  else match toLocaleString dateTime with
       | Ok formatted => String formatted
       | Throw _ => dateTime
       end.

Definition formatLocation `{Builtins} (latitude longitude : Value) : Value :=
  if negb (truthy latitude) || negb (truthy longitude) then Null
  else
    let latDirection := if ge latitude (Fin 0) then "N" else "S" in
    let lonDirection := if ge longitude (Fin 0) then "E" else "W" in
    String (toFixed (Math_abs latitude) 4 +:+ "° " +:+ latDirection +:+ ", "
            +:+ toFixed (Math_abs longitude) 4 +:+ "° " +:+ lonDirection).

(** The [settings] array of [formatCameraInfo]. *)
Definition cameraSettings `{Builtins} (fNumber exposureTime iso focalLength : Value)
  : list Value :=
  (if truthy fNumber then [String ("f/" +:+ to_string fNumber)] else [])
  ++ (if truthy exposureTime then [String (to_string exposureTime +:+ "s")] else [])
  ++ (if truthy iso then [String ("ISO " +:+ to_string iso)] else [])
  ++ (if truthy focalLength then [String (to_string focalLength +:+ "mm")] else []).

(** [formatCameraInfo]: the lines of the camera block, or null ([None]). *)
Definition formatCameraInfo `{Builtins} (exifData : Value) : Result (option (list Value)) :=
  make ← get exifData "make";
  model ← get exifData "model";
  let parts :=
    if truthy make && truthy model
    then [String (to_string make +:+ " " +:+ to_string model)]
    else if truthy model then [model] else [] in
  fNumber ← get exifData "fNumber";
  exposureTime ← get exifData "exposureTime";
  iso ← get exifData "iso";
  focalLength ← get exifData "focalLength";
  let settings := cameraSettings fNumber exposureTime iso focalLength in
  let parts :=
    if 0 <? length settings then parts ++ [String (join " • " settings)] else parts in
  Ok (if 0 <? length parts then Some parts else None).

(** What the component renders: the class of the outer [div] and the four
    blocks, each null when it is not shown. *)
Record Overlay := {
  className : string;
  dateTime : Value;
  location : Value;
  locationName : Value;
  cameraInfo : option (list Value)
}.

(** The component body for the props [exifData] and [config] and the state
    [isVisible]; [None] is a render of null. *)
Definition render `{Builtins} `{DateFormat} (exifData config : Value) (isVisible : bool)
  : Result (option Overlay) :=
  _ ← get config "autoHide";
  if negb (truthy exifData) then Ok None
  else
    showDateTime ← get config "showDateTime";
    rawDateTime ← (if truthy showDateTime then get exifData "dateTime" else Ok Undefined);
    let dateTime :=
      if truthy showDateTime && truthy rawDateTime then formatDateTime rawDateTime
      else Null in
    showLocation ← get config "showLocation";
    latitude ← (if truthy showLocation then get exifData "latitude" else Ok Undefined);
    longitude ← (if truthy showLocation && truthy latitude
                 then get exifData "longitude" else Ok Undefined);
    let location :=
      if truthy showLocation && truthy latitude && truthy longitude
      then formatLocation latitude longitude else Null in
    name ← (if truthy showLocation then get exifData "locationName" else Ok Undefined);
    let locationName := if truthy showLocation && truthy name then name else Null in
    showCameraInfo ← get config "showCameraInfo";
    cameraInfo ← (if truthy showCameraInfo then formatCameraInfo exifData else Ok None);
    if negb (truthy dateTime) && negb (truthy location) && negb (truthy locationName)
       && negb (bool_decide (is_Some cameraInfo))
    then Ok None
    else
      style ← get config "style";
      position ← get config "position";
      Ok (Some {| className :=
                    "exif-overlay " +:+ to_string (or style (String "style-modern-blur"))
                    +:+ " " +:+ to_string position +:+ " "
                    +:+ (if isVisible then "visible" else "hidden");
                  dateTime := dateTime; location := location;
                  locationName := locationName; cameraInfo := cameraInfo |}).

(** Sample: a date formatter that echoes its argument, and a display policy
    that shows the camera block only. *)
Definition echoDate : DateFormat := fun v =>
  match v with
  | String s => Ok s
  | _ => Ok "Invalid Date"
  end.
Definition cameraOnly : Value :=
  Object [("showDateTime", Bool false); ("showLocation", Bool false);
          ("showCameraInfo", Bool true); ("position", String "bottom-left");
          ("autoHide", Bool false)].
Definition makeOnly : Value :=
  Object [("make", String "Canon"); ("model", Null); ("fNumber", Null)].

End ExifOverlay.

(** ** Slideshow.jsx: the preload effect *)

Module Preload.
Import Slideshow.

(** A URL as an array read gives it: [None] is [undefined]. *)
Definition truthyUrl (url : option string) : bool :=
  match url with
  | Some u => negb (String.eqb u "")
  | None => false
  end.

(** The component with its [preloadedImages] state and the [Image] objects
    that are still loading, each with the [url] and [index] its handlers
    captured. *)
Record Session := {
  playback : State;
  preloadedImages : gmap nat (option string);
  loading : list (option string * nat)
}.

(** [preloadImage(url, index)], called with the [preloadedImages] of the
    render the effect belongs to. *)
Definition preloadImage (rendered : gmap nat (option string))
    (url : option string) (index : nat) (images : list (option string * nat))
  : list (option string * nat) :=
  if truthyUrl (default None (rendered !! index)) then images
  else images ++ [(url, index)].

(** The effect on [[photos, currentIndex, nextIndex, preloadedImages]]. *)
Definition preloadEffect (ss : Session) : Session :=
  let s := playback ss in
  if length (photos s) =? 0 then ss
  else
    let images :=
      preloadImage (preloadedImages ss) (photos s !! currentIndex s) (currentIndex s)
        (loading ss) in
    let images :=
      if truthyUrl (photos s !! nextIndex s)
      then preloadImage (preloadedImages ss) (photos s !! nextIndex s) (nextIndex s) images
      else images in
    {| playback := s; preloadedImages := preloadedImages ss; loading := images |}.

Inductive SessionEvent :=
| Playback (e : Event)
| ImageLoads (k : nat)
| ImageFails (k : nat).

(** One event: a playback event, or [onload] or [onerror] of the [k]-th
    image that is loading. *)
Definition occur (p : Props) (ev : SessionEvent) (ss : Session) : Session :=
  match ev with
  | Playback e =>
      {| playback := step p (playback ss) e; preloadedImages := preloadedImages ss;
         loading := loading ss |}
  | ImageLoads k =>
      match loading ss !! k with
      | Some (url, index) =>
          {| playback := playback ss;
             preloadedImages := <[index := url]> (preloadedImages ss);
             loading := delete k (loading ss) |}
      | None => ss
      end
  | ImageFails k =>
      {| playback := playback ss; preloadedImages := preloadedImages ss;
         loading := delete k (loading ss) |}
  end.

(** Whether a dependency of the effect has changed: an index, or the
    [preloadedImages] object, which every [onload] replaces by a new one
    (the photo list does not change during a session). *)
Definition depsChanged (ev : SessionEvent) (ss ss' : Session) : bool :=
  match ev with
  | ImageLoads k => bool_decide (is_Some (loading ss !! k))
  | Playback _ | ImageFails _ => false
  end
  || negb ((currentIndex (playback ss') =? currentIndex (playback ss))
           && (nextIndex (playback ss') =? nextIndex (playback ss))).

(** The event, then the effect when one of its dependencies has changed. *)
Definition sessionStep (p : Props) (ss : Session) (ev : SessionEvent) : Session :=
  let ss' := occur p ev ss in
  if depsChanged ev ss ss' then preloadEffect ss' else ss'.

(** The session once the list [l] has been stored. *)
Definition mounted (p : Props) (l : list string) : Session :=
  preloadEffect {| playback := ready p l; preloadedImages := ∅; loading := [] |}.

Inductive sessionReachable (p : Props) (l : list string) : Session -> Prop :=
| session_mounted : sessionReachable p l (mounted p l)
| session_step ss ev :
    sessionReachable p l ss -> sessionReachable p l (sessionStep p ss ev).

(** Every cached entry and every image that is loading holds what the photo
    list has at its index. *)
Definition cacheInv (l : list string) (ss : Session) : Prop :=
  photos (playback ss) = l
  /\ (forall index url, preloadedImages ss !! index = Some url -> url = l !! index)
  /\ Forall (fun image => image.1 = l !! image.2) (loading ss).

End Preload.

(* ===================================================================== *)
(** * Part II -- the properties                                           *)
(* ===================================================================== *)

(** ** The playback engine *)

Section Playback.
Import Slideshow.

Implicit Types (s : State) (t : Timeout) (p : Props) (l : list string).

(** *** What the timeout callback and [settle] leave alone *)

Lemma transitionDone_fields t s :
  photos (transitionDone t s) = photos s
  /\ currentIndex (transitionDone t s) = target t
  /\ nextIndex (transitionDone t s) = (target t + 1) mod capturedLength t
  /\ isTransitioning (transitionDone t s) = false
  /\ isPaused (transitionDone t s) = isPaused s
  /\ timeouts (transitionDone t s) = timeouts s.
Proof. by repeat split. Qed.

Lemma fold_transitionDone_frame ts s :
  let s' := fold_left (fun s' t => transitionDone t s') ts s in
  photos s' = photos s /\ isPaused s' = isPaused s /\ timeouts s' = timeouts s.
Proof.
  revert s. induction ts as [|t ts IH]; intros s; simpl; [done|].
  destruct (IH (transitionDone t s)) as (Hp & Hq & Ht).
  rewrite Hp, Hq, Ht. done.
Qed.

(** When the youngest pending timeout is [t], settling ends with its
    callback. *)
Lemma settle_youngest s ts t :
  timeouts s = ts ++ [t] ->
  photos (settle s) = photos s
  /\ currentIndex (settle s) = target t
  /\ nextIndex (settle s) = (target t + 1) mod capturedLength t
  /\ isTransitioning (settle s) = false
  /\ isPaused (settle s) = isPaused s
  /\ timeouts (settle s) = [].
Proof.
  intros Hts. unfold settle. rewrite Hts, fold_left_app. simpl.
  destruct (fold_transitionDone_frame ts (withTimeouts [] s)) as (Hp & Hq & Ht).
  simpl in *. by rewrite Hp, Hq, Ht.
Qed.

Lemma length_zero_iff_nil l : (length l =? 0) = true <-> l = [].
Proof. rewrite Nat.eqb_eq. by destruct l. Qed.

Lemma goToNextPhoto_nonempty s :
  photos s <> [] ->
  goToNextPhoto s =
    setTimeout {| scheduledBy := Forward;
                  target := (currentIndex s + 1) mod length (photos s);
                  capturedLength := length (photos s) |}
      (setNextIndex ((currentIndex s + 1) mod length (photos s))
         (setIsTransitioning true s)).
Proof.
  intros Hne. unfold goToNextPhoto.
  destruct (length (photos s) =? 0) eqn:E; [|done].
  by apply length_zero_iff_nil in E.
Qed.

Lemma goToPreviousPhoto_idle s :
  photos s <> [] -> isTransitioning s = false ->
  goToPreviousPhoto s =
    setTimeout {| scheduledBy := Backward;
                  target := backwardTarget (length (photos s)) (currentIndex s);
                  capturedLength := length (photos s) |}
      (setNextIndex (backwardTarget (length (photos s)) (currentIndex s))
         (setIsTransitioning true s)).
Proof.
  intros Hne Hidle. unfold goToPreviousPhoto. rewrite Hidle.
  destruct (length (photos s) =? 0) eqn:E; [|done].
  by apply length_zero_iff_nil in E.
Qed.

(** The guard of [goToPreviousPhoto]. *)
Lemma goToPreviousPhoto_while_transitioning s :
  isTransitioning s = true -> goToPreviousPhoto s = s.
Proof.
  intros H. unfold goToPreviousPhoto. rewrite H.
  by rewrite orb_true_r.
Qed.

(** The guard of the auto-advance effect. *)
Lemma intervalTick_while_transitioning s :
  isTransitioning s = true -> intervalTick s = s.
Proof.
  intros H. unfold intervalTick. rewrite H.
  by rewrite orb_true_r.
Qed.

(** [goToNextPhoto] has no such guard: on a non-empty list it always
    schedules one more timeout. *)
Lemma goToNextPhoto_always_schedules s :
  photos s <> [] -> length (timeouts (goToNextPhoto s)) = S (length (timeouts s)).
Proof.
  intros Hne. rewrite goToNextPhoto_nonempty by done. simpl.
  rewrite length_app. simpl. lia.
Qed.

Lemma nextAndComplete_spec s :
  photos s <> [] ->
  photos (nextAndComplete s) = photos s
  /\ currentIndex (nextAndComplete s) = (currentIndex s + 1) mod length (photos s)
  /\ nextIndex (nextAndComplete s)
     = ((currentIndex s + 1) mod length (photos s) + 1) mod length (photos s)
  /\ isTransitioning (nextAndComplete s) = false.
Proof.
  intros Hne. unfold nextAndComplete.
  destruct (settle_youngest (goToNextPhoto s) (timeouts s)
              {| scheduledBy := Forward;
                 target := (currentIndex s + 1) mod length (photos s);
                 capturedLength := length (photos s) |})
    as (Hp & Hc & Hn & Ht & _).
  { by rewrite goToNextPhoto_nonempty. }
  rewrite Hp, Hc, Hn, Ht. rewrite goToNextPhoto_nonempty by done. done.
Qed.

Lemma iter_nextAndComplete s k :
  photos s <> [] ->
  currentIndex s < length (photos s) ->
  photos (Nat.iter k nextAndComplete s) = photos s
  /\ currentIndex (Nat.iter k nextAndComplete s)
     = (currentIndex s + k) mod length (photos s).
Proof.
  intros Hne Hlt. induction k as [|k [IHp IHc]]; simpl.
  - split; [done|]. rewrite Nat.add_0_r. by rewrite Nat.mod_small.
  - assert (Hne' : photos (Nat.iter k nextAndComplete s) <> []) by by rewrite IHp.
    destruct (nextAndComplete_spec _ Hne') as (Hp & Hc & _).
    rewrite Hp, Hc, IHp, IHc. split; [done|].
    rewrite Nat.Div0.add_mod_idemp_l. f_equal. lia.
Qed.

(** C4. For every non-empty photo list of length N and every starting
    [currentIndex] (an index of the list), invoking "next" N times, each
    transition allowed to complete, returns [currentIndex] to its starting
    value. *)
Theorem next_N_times_returns_to_start s :
  photos s <> [] ->
  currentIndex s < length (photos s) ->
  currentIndex (Nat.iter (length (photos s)) nextAndComplete s) = currentIndex s.
Proof.
  intros Hne Hlt.
  destruct (iter_nextAndComplete s (length (photos s)) Hne Hlt) as [_ ->].
  rewrite <- (Nat.mul_1_l (length (photos s))) at 1.
  rewrite Nat.Div0.mod_add. by apply Nat.mod_small.
Qed.

(** *** Navigation on an empty list, and on a list of one *)

(** C7, as the claim states it, fails on a list of one photo: "next" on the
    freshly loaded single-photo state raises [isTransitioning] and moves
    [nextIndex], and so does "previous". *)
Lemma single_photo_navigation_changes_state :
  let s := ready sampleProps singlePhoto in
  length (photos s) = 1
  /\ isTransitioning s = false /\ nextIndex s = 1
  /\ isTransitioning (goToNextPhoto s) = true /\ nextIndex (goToNextPhoto s) = 0
  /\ isTransitioning (goToPreviousPhoto s) = true
  /\ goToNextPhoto s <> s /\ goToPreviousPhoto s <> s.
Proof. simpl. repeat split; discriminate. Qed.

(** C7 (amended). On an empty photo list "next" and "previous" leave the
    whole state as it is.  On a list of one photo "next" is no no-op: it
    sets [isTransitioning], sets [nextIndex] to 0 and schedules a transition
    whose target is the photo itself, leaving the rest of the state alone;
    "previous" (at [currentIndex = 0]) does the same when no transition is
    in flight, and is a no-op while one is.  Once the transitions have
    completed, [currentIndex] is 0 and the photo list and [isPaused] are
    what they were. *)
Theorem navigation_on_short_lists s :
  (length (photos s) = 0 -> goToNextPhoto s = s /\ goToPreviousPhoto s = s)
  /\ (length (photos s) = 1 ->
      goToNextPhoto s
      = setTimeout {| scheduledBy := Forward; target := 0; capturedLength := 1 |}
          (setNextIndex 0 (setIsTransitioning true s))
      /\ goToNextPhoto s <> s
      /\ isTransitioning (goToNextPhoto s) = true
      /\ nextIndex (goToNextPhoto s) = 0
      /\ timeouts (goToNextPhoto s)
         = timeouts s ++ [{| scheduledBy := Forward; target := 0; capturedLength := 1 |}]
      /\ currentIndex (settle (goToNextPhoto s)) = 0
      /\ photos (settle (goToNextPhoto s)) = photos s
      /\ isPaused (settle (goToNextPhoto s)) = isPaused s
      /\ isTransitioning (settle (goToNextPhoto s)) = false)
  /\ (length (photos s) = 1 -> currentIndex s = 0 -> isTransitioning s = false ->
      goToPreviousPhoto s
      = setTimeout {| scheduledBy := Backward; target := 0; capturedLength := 1 |}
          (setNextIndex 0 (setIsTransitioning true s))
      /\ goToPreviousPhoto s <> s
      /\ isTransitioning (goToPreviousPhoto s) = true
      /\ nextIndex (goToPreviousPhoto s) = 0
      /\ timeouts (goToPreviousPhoto s)
         = timeouts s ++ [{| scheduledBy := Backward; target := 0; capturedLength := 1 |}]
      /\ currentIndex (settle (goToPreviousPhoto s)) = 0
      /\ photos (settle (goToPreviousPhoto s)) = photos s
      /\ isPaused (settle (goToPreviousPhoto s)) = isPaused s
      /\ isTransitioning (settle (goToPreviousPhoto s)) = false)
  /\ (isTransitioning s = true -> goToPreviousPhoto s = s).
Proof.
  split; [|split; [|split]].
  - intros H0. unfold goToNextPhoto, goToPreviousPhoto. by rewrite H0.
  - intros H1.
    assert (Hne : photos s <> []) by (intros E; rewrite E in H1; discriminate).
    assert (Hnext : goToNextPhoto s
                    = setTimeout {| scheduledBy := Forward; target := 0;
                                    capturedLength := 1 |}
                        (setNextIndex 0 (setIsTransitioning true s))).
    { rewrite goToNextPhoto_nonempty by done. rewrite H1.
      by rewrite Nat.mod_1_r. }
    split; [done|]. split.
    { intros E. pose proof (goToNextPhoto_always_schedules s Hne) as Hlen.
      rewrite E in Hlen. lia. }
    destruct (settle_youngest (goToNextPhoto s) (timeouts s)
                {| scheduledBy := Forward; target := 0; capturedLength := 1 |})
      as (Hp & Hi & _ & Ht & Hq & _); [by rewrite Hnext|].
    rewrite Hp, Hi, Ht, Hq, Hnext. done.
  - intros H1 Hc Hidle.
    assert (Hne : photos s <> []) by (intros E; rewrite E in H1; discriminate).
    assert (Hprev : goToPreviousPhoto s
                    = setTimeout {| scheduledBy := Backward; target := 0;
                                    capturedLength := 1 |}
                        (setNextIndex 0 (setIsTransitioning true s))).
    { rewrite goToPreviousPhoto_idle by done. by rewrite H1, Hc. }
    split; [done|]. split.
    { rewrite Hprev. intros E. apply (f_equal isTransitioning) in E.
      simpl in E. congruence. }
    destruct (settle_youngest (goToPreviousPhoto s) (timeouts s)
                {| scheduledBy := Backward; target := 0; capturedLength := 1 |})
      as (Hp & Hi & _ & Ht & Hq & _); [by rewrite Hprev|].
    rewrite Hp, Hi, Ht, Hq, Hprev. done.
  - apply goToPreviousPhoto_while_transitioning.
Qed.

Lemma navigation_on_short_lists_witness :
  (goToNextPhoto initialState = initialState
   /\ goToPreviousPhoto initialState = initialState)
  /\ timeouts (goToNextPhoto (ready sampleProps singlePhoto))
     = [{| scheduledBy := Forward; target := 0; capturedLength := 1 |}]
  /\ timeouts (goToPreviousPhoto (ready sampleProps singlePhoto))
     = [{| scheduledBy := Backward; target := 0; capturedLength := 1 |}]
  /\ goToPreviousPhoto (goToNextPhoto (ready sampleProps singlePhoto))
     = goToNextPhoto (ready sampleProps singlePhoto).
Proof.
  split; [|split; [|split]].
  - apply (navigation_on_short_lists initialState). reflexivity.
  - destruct (navigation_on_short_lists (ready sampleProps singlePhoto))
      as (_ & Hnext & _).
    destruct (Hnext eq_refl) as (_ & _ & _ & _ & Hts & _). exact Hts.
  - destruct (navigation_on_short_lists (ready sampleProps singlePhoto))
      as (_ & _ & Hprev & _).
    destruct (Hprev eq_refl eq_refl eq_refl) as (_ & _ & _ & _ & Hts & _). exact Hts.
  - destruct (navigation_on_short_lists (goToNextPhoto (ready sampleProps singlePhoto)))
      as (_ & _ & _ & Hguard).
    apply Hguard. reflexivity.
Defined.

(** *** Re-entrant triggers *)

(** C1 at a failing input.  On the list [A, B, C] the "next" key starts a
    transition; a second "next" key during that transition is not ignored:
    a second timeout is scheduled and two transitions are in flight.  The
    "previous" key in the same state is ignored. *)
Example next_during_transition_starts_a_second_one :
  let s := handleKeyPress "ArrowRight" (ready sampleProps samplePhotos) in
  isTransitioning s = true
  /\ length (timeouts s) = 1
  /\ length (timeouts (handleKeyPress "ArrowRight" s)) = 2
  /\ handleKeyPress "ArrowRight" s <> s
  /\ handleKeyPress "ArrowLeft" s = s.
Proof. simpl. repeat split. discriminate. Qed.

(** The same slip inside a backward transition: on [A, B, C], "previous" at
    index 0 puts its target 2 into [nextIndex]; a "next" key before the
    timeout fires overwrites it with 1. *)
Example next_during_backward_transition_overwrites_nextIndex :
  let s := handleKeyPress "ArrowLeft" (ready sampleProps samplePhotos) in
  nextIndex s = 2
  /\ nextIndex (handleKeyPress "ArrowRight" s) = 1
  /\ map scheduledBy (timeouts (handleKeyPress "ArrowRight" s)) = [Backward; Forward].
Proof. by simpl. Qed.

(** *** Backward navigation wraps around *)

(** C10, as the claim states it, fails while a transition is in flight.  On
    [A, B, C] the "next" key leaves [currentIndex] at 0 until its timeout
    fires; "previous" in that state does nothing: no transition to the last
    photo is pending, and once the pending one completes the indices are 1
    and 2, not 2 and 0. *)
Lemma previous_during_transition_does_not_wrap :
  let s := step sampleProps (ready sampleProps samplePhotos) (KeyDown "ArrowRight") in
  reachable sampleProps samplePhotos s
  /\ length (photos s) = 3
  /\ currentIndex s = 0
  /\ goToPreviousPhoto s = s
  /\ map target (timeouts (goToPreviousPhoto s)) = [1]
  /\ currentIndex (settle (goToPreviousPhoto s)) = 1
  /\ nextIndex (settle (goToPreviousPhoto s)) = 2.
Proof.
  intros s. split; [|by repeat split].
  apply reachable_step, reachable_ready.
Qed.

(** C10 (amended). On a list of length N >= 2, "previous" at
    [currentIndex = 0] with no transition in flight schedules a transition
    to N - 1, which [nextIndex] holds meanwhile; after it completes
    [currentIndex = N - 1] and [nextIndex = 0].  While a transition is in
    flight "previous" is a no-op. *)
Theorem previous_at_zero_wraps_to_last s :
  2 <= length (photos s) ->
  currentIndex s = 0 ->
  let n := length (photos s) in
  let s1 := goToPreviousPhoto s in
  (isTransitioning s = false ->
   last (timeouts s1)
     = Some {| scheduledBy := Backward; target := n - 1; capturedLength := n |}
   /\ nextIndex s1 = n - 1
   /\ isTransitioning s1 = true
   /\ currentIndex s1 = 0
   /\ currentIndex (settle s1) = n - 1
   /\ nextIndex (settle s1) = 0
   /\ isTransitioning (settle s1) = false)
  /\ (isTransitioning s = true -> s1 = s).
Proof.
  intros Hn Hc n s1. split; [|apply goToPreviousPhoto_while_transitioning].
  intros Hidle.
  assert (Hne : photos s <> []) by (intros E; rewrite E in Hn; simpl in Hn; lia).
  assert (Hs1 : s1 = setTimeout {| scheduledBy := Backward; target := n - 1;
                                   capturedLength := n |}
                       (setNextIndex (n - 1) (setIsTransitioning true s))).
  { subst s1. rewrite goToPreviousPhoto_idle by done.
    by rewrite Hc. }
  destruct (settle_youngest s1 (timeouts s)
              {| scheduledBy := Backward; target := n - 1; capturedLength := n |})
    as (_ & Hi & Hx & Ht & _).
  { by rewrite Hs1. }
  rewrite Hi, Hx, Ht. rewrite Hs1. simpl.
  rewrite last_snoc. repeat split; try done.
  replace (n - 1 + 1) with n by (subst n; lia).
  apply Nat.Div0.mod_same.
Qed.

Lemma previous_at_zero_wraps_to_last_witness :
  (let s1 := goToPreviousPhoto (ready sampleProps samplePhotos) in
   last (timeouts s1)
     = Some {| scheduledBy := Backward; target := 2; capturedLength := 3 |}
   /\ nextIndex s1 = 2
   /\ isTransitioning s1 = true
   /\ currentIndex s1 = 0
   /\ currentIndex (settle s1) = 2
   /\ nextIndex (settle s1) = 0
   /\ isTransitioning (settle s1) = false)
  /\ goToPreviousPhoto (goToNextPhoto (ready sampleProps samplePhotos))
     = goToNextPhoto (ready sampleProps samplePhotos).
Proof.
  split.
  - destruct (previous_at_zero_wraps_to_last (ready sampleProps samplePhotos))
      as [Hidle _]; [simpl; lia | reflexivity |].
    apply Hidle. reflexivity.
  - destruct (previous_at_zero_wraps_to_last
                (goToNextPhoto (ready sampleProps samplePhotos)))
      as [_ Hbusy]; [simpl; lia | reflexivity |].
    apply Hbusy. reflexivity.
Defined.

Lemma next_N_times_returns_to_start_witness :
  currentIndex (Nat.iter 3 nextAndComplete (ready sampleProps samplePhotos)) = 0.
Proof.
  apply (next_N_times_returns_to_start (ready sampleProps samplePhotos));
    [discriminate | simpl; lia].
Defined.

(** *** The successor invariant of [nextIndex] *)

(** Both invariants read the playback fields only. *)
Lemma inTurnInv_frame l s s' :
  photos s' = photos s -> currentIndex s' = currentIndex s ->
  nextIndex s' = nextIndex s -> isTransitioning s' = isTransitioning s ->
  timeouts s' = timeouts s ->
  inTurnInv l s -> inTurnInv l s'.
Proof.
  unfold inTurnInv. intros -> -> -> -> ->. done.
Qed.

Lemma anyOrderInv_frame l s s' :
  photos s' = photos s -> currentIndex s' = currentIndex s ->
  nextIndex s' = nextIndex s -> timeouts s' = timeouts s ->
  anyOrderInv l s -> anyOrderInv l s'.
Proof.
  unfold anyOrderInv. intros -> -> -> ->. done.
Qed.

Lemma exifEffect_playback p s :
  photos (exifEffect p s) = photos s
  /\ currentIndex (exifEffect p s) = currentIndex s
  /\ nextIndex (exifEffect p s) = nextIndex s
  /\ isTransitioning (exifEffect p s) = isTransitioning s
  /\ isPaused (exifEffect p s) = isPaused s
  /\ timeouts (exifEffect p s) = timeouts s.
Proof. unfold exifEffect. by destruct (_ || _). Qed.

Lemma exifSettles_playback k o s :
  photos (exifSettles k o s) = photos s
  /\ currentIndex (exifSettles k o s) = currentIndex s
  /\ nextIndex (exifSettles k o s) = nextIndex s
  /\ isTransitioning (exifSettles k o s) = isTransitioning s
  /\ isPaused (exifSettles k o s) = isPaused s
  /\ timeouts (exifSettles k o s) = timeouts s.
Proof. unfold exifSettles. destruct (_ !! _); [by destruct o|done]. Qed.

Lemma backwardTarget_lt n i : i < n -> backwardTarget n i < n.
Proof. unfold backwardTarget. destruct (Nat.eqb_spec i 0); lia. Qed.

Lemma inTurnInv_nonempty l s : inTurnInv l s -> photos s <> [].
Proof. intros (Hp & Hc & _) E. rewrite <- Hp, E in Hc. simpl in Hc. lia. Qed.

Lemma inTurnInv_next l s :
  inTurnInv l s -> isTransitioning s = false -> inTurnInv l (goToNextPhoto s).
Proof.
  intros Hinv Hidle. pose proof (inTurnInv_nonempty _ _ Hinv) as Hne.
  destruct Hinv as (Hp & Hc & [(_ & Hts & Hn) | (Htr & _)]); [|congruence].
  rewrite goToNextPhoto_nonempty by done.
  split; [done|]. split; [done|]. right. split; [done|].
  eexists. simpl. rewrite Hts, Hp. simpl. done.
Qed.

Lemma inTurnInv_previous l s : inTurnInv l s -> inTurnInv l (goToPreviousPhoto s).
Proof.
  intros Hinv. destruct (isTransitioning s) eqn:Htr.
  { by rewrite goToPreviousPhoto_while_transitioning. }
  pose proof (inTurnInv_nonempty _ _ Hinv) as Hne.
  destruct Hinv as (Hp & Hc & [(_ & Hts & Hn) | (Htr' & _)]); [|congruence].
  rewrite goToPreviousPhoto_idle by done.
  split; [done|]. split; [done|]. right. split; [done|].
  eexists. simpl. rewrite Hts, Hp. simpl. done.
Qed.

Lemma inTurnInv_timeoutFires l s : inTurnInv l s -> inTurnInv l (timeoutFires s).
Proof.
  intros Hinv. pose proof Hinv as (Hp & Hc & [(Htr & Hts & Hn) | (Htr & t & Hts & Hl & Hn & Ht)]).
  - unfold timeoutFires. by rewrite Hts.
  - unfold timeoutFires. rewrite Hts.
    assert (Hlt : target t < length l).
    { rewrite Ht. destruct (scheduledBy t).
      - apply Nat.mod_upper_bound. lia.
      - by apply backwardTarget_lt. }
    split; [done|]. split; [done|]. left. simpl. by rewrite Hl.
Qed.

Lemma inTurnInv_handle l s e :
  inTurnInv l s -> outsideTransition e s -> inTurnInv l (handle e s).
Proof.
  intros Hinv Hout. destruct e as [key| | |k o]; simpl.
  - unfold handleKeyPress. simpl in Hout. unfold isNextKey in Hout.
    destruct (String.eqb key "ArrowRight" || String.eqb key "MediaTrackNext").
    { apply inTurnInv_next; auto. }
    destruct (String.eqb key "ArrowLeft" || String.eqb key "MediaTrackPrevious").
    { by apply inTurnInv_previous. }
    destruct (_ || _); [|done].
    by apply (inTurnInv_frame l s).
  - unfold intervalTick.
    destruct (length (photos s) =? 0); simpl; [done|].
    destruct (isPaused s); simpl; [done|].
    destruct (isTransitioning s) eqn:Htr; [done|].
    by apply inTurnInv_next.
  - by apply inTurnInv_timeoutFires.
  - destruct (exifSettles_playback k o s) as (? & ? & ? & ? & ? & ?).
    by apply (inTurnInv_frame l s).
Qed.

Lemma inTurnInv_step p l s e :
  inTurnInv l s -> outsideTransition e s -> inTurnInv l (step p s e).
Proof.
  intros Hinv Hout. unfold step.
  pose proof (inTurnInv_handle l s e Hinv Hout) as H'.
  destruct (_ =? _); [done|].
  destruct (exifEffect_playback p (handle e s)) as (? & ? & ? & ? & ? & ?).
  by apply (inTurnInv_frame l (handle e s)).
Qed.

Lemma ready_playback p l :
  photos (ready p l) = l /\ currentIndex (ready p l) = 0
  /\ nextIndex (ready p l) = 1 /\ isTransitioning (ready p l) = false
  /\ isPaused (ready p l) = false /\ timeouts (ready p l) = [].
Proof.
  unfold ready.
  destruct (exifEffect_playback p (setIsLoading false (setPhotos l initialState)))
    as (-> & -> & -> & -> & -> & ->). done.
Qed.

Lemma reachableInTurn_inv p l s :
  2 <= length l -> reachableInTurn p l s -> inTurnInv l s.
Proof.
  intros Hlen Hr. induction Hr as [|s e _ IH Hout].
  - destruct (ready_playback p l) as (Hp & Hc & Hn & Ht & _ & Hts).
    unfold inTurnInv. rewrite Hp, Hc, Hn, Ht, Hts.
    split; [done|]. split; [lia|]. left. repeat split.
    simpl. rewrite Nat.mod_small; lia.
  - by apply inTurnInv_step.
Qed.

(** C3, as the claim states it, fails right after a list of one photo is
    loaded: no navigation has happened, [nextIndex] is 1, and
    [(currentIndex + 1) mod 1] is 0. *)
Lemma single_photo_nextIndex_is_not_successor :
  let s := ready sampleProps singlePhoto in
  reachable sampleProps singlePhoto s
  /\ timeouts s = []
  /\ nextIndex s = 1
  /\ (currentIndex s + 1) mod length (photos s) = 0
  /\ nextIndex s <> (currentIndex s + 1) mod length (photos s).
Proof. simpl. repeat split; [constructor | discriminate]. Qed.

(** C3 (amended). On a list of length N >= 2, in every state reached by
    events where no "next" key arrives during a transition:
    - with no backward timeout pending, [nextIndex = (currentIndex + 1) mod N];
    - while a backward timeout is pending, it is the only one, and
      [nextIndex] holds its target, the backward target of [currentIndex];
    - when the pending timeout fires, [currentIndex] becomes its target,
      [nextIndex] the successor of that, and the transition flag is cleared. *)
Theorem nextIndex_is_successor_or_backward_target p l s :
  2 <= length l ->
  reachableInTurn p l s ->
  (Forall (fun t => scheduledBy t = Forward) (timeouts s) ->
     nextIndex s = (currentIndex s + 1) mod length l)
  /\ (forall t, t ∈ timeouts s -> scheduledBy t = Backward ->
        timeouts s = [t]
        /\ isTransitioning s = true
        /\ nextIndex s = target t
        /\ target t = backwardTarget (length l) (currentIndex s))
  /\ (forall t rest, timeouts s = t :: rest ->
        currentIndex (timeoutFires s) = target t
        /\ nextIndex (timeoutFires s) = (target t + 1) mod length l
        /\ isTransitioning (timeoutFires s) = false).
Proof.
  intros Hlen Hr.
  destruct (reachableInTurn_inv p l s Hlen Hr)
    as (Hp & Hc & [(Htr & Hts & Hn) | (Htr & t & Hts & Hl & Hn & Ht)]).
  - split; [done|]. rewrite Hts. split.
    + intros t Hin. by apply elem_of_nil in Hin.
    + intros t rest E. discriminate.
  - split; [|split].
    + rewrite Hts. intros Hall. pose proof (Forall_inv Hall) as Hf. simpl in Hf.
      rewrite Hf in Ht. congruence.
    + intros t' Hin Hb. rewrite Hts in Hin. apply list_elem_of_singleton in Hin.
      subst t'. rewrite Hb in Ht. done.
    + intros t' rest E. rewrite Hts in E. injection E as <- <-.
      unfold timeoutFires. rewrite Hts. simpl. by rewrite Hl.
Qed.

Lemma nextIndex_is_successor_or_backward_target_witness :
  let s := step sampleProps (ready sampleProps samplePhotos) (KeyDown "ArrowLeft") in
  (Forall (fun t => scheduledBy t = Forward) (timeouts s) ->
     nextIndex s = (currentIndex s + 1) mod 3)
  /\ (forall t, t ∈ timeouts s -> scheduledBy t = Backward ->
        timeouts s = [t]
        /\ isTransitioning s = true
        /\ nextIndex s = target t
        /\ target t = backwardTarget 3 (currentIndex s))
  /\ (forall t rest, timeouts s = t :: rest ->
        currentIndex (timeoutFires s) = target t
        /\ nextIndex (timeoutFires s) = (target t + 1) mod 3
        /\ isTransitioning (timeoutFires s) = false).
Proof.
  apply (nextIndex_is_successor_or_backward_target sampleProps samplePhotos).
  - simpl. lia.
  - apply inTurn_step; [apply inTurn_ready | simpl; discriminate].
Defined.

(** Whatever the order of events, "next" keys during transitions included:
    [nextIndex] is the successor of [currentIndex] unless a backward timeout
    is pending. *)
Lemma anyOrderInv_step p l s e : anyOrderInv l s -> anyOrderInv l (step p s e).
Proof.
  intros Hinv.
  assert (H' : anyOrderInv l (handle e s)).
  { destruct Hinv as (Hp & Hall & Hn). destruct e as [key| | |k o]; simpl.
    - assert (Hnext : anyOrderInv l (goToNextPhoto s)).
      { unfold goToNextPhoto. destruct (_ =? _); [done|].
        split; [done|]. split; simpl.
        - apply Forall_app. split; [done|]. apply Forall_singleton. simpl. by rewrite Hp.
        - left. by rewrite Hp. }
      unfold handleKeyPress.
      destruct (_ || _); [done|]. destruct (_ || _).
      + unfold goToPreviousPhoto. destruct (_ || _); [done|].
        split; [done|]. split; simpl.
        * apply Forall_app. split; [done|]. apply Forall_singleton. simpl. by rewrite Hp.
        * right. apply Exists_app. right. by apply Exists_cons_hd.
      + by destruct (_ || _).
    - unfold intervalTick. destruct (_ || _); [done|].
      unfold goToNextPhoto. destruct (_ =? _); [done|].
      split; [done|]. split; simpl.
      + apply Forall_app. split; [done|]. apply Forall_singleton. simpl. by rewrite Hp.
      + left. by rewrite Hp.
    - unfold timeoutFires. destruct (timeouts s) as [|t rest] eqn:Hts.
      + split; [done|]. by rewrite Hts.
      + apply Forall_cons in Hall as [Hl Hall].
        split; [done|]. split; [done|]. left. simpl. by rewrite Hl.
    - destruct (exifSettles_playback k o s) as (? & ? & ? & ? & ? & ?).
      by apply (anyOrderInv_frame l s). }
  unfold step. destruct (_ =? _); [done|].
  destruct (exifEffect_playback p (handle e s)) as (? & ? & ? & ? & ? & ?).
  by apply (anyOrderInv_frame l (handle e s)).
Qed.

Lemma successor_unless_backward_pending p l s :
  2 <= length l ->
  reachable p l s ->
  nextIndex s = (currentIndex s + 1) mod length l
  \/ Exists (fun t => scheduledBy t = Backward) (timeouts s).
Proof.
  intros Hlen Hr.
  enough (anyOrderInv l s) as (_ & _ & H) by done.
  induction Hr as [|s e _ IH].
  - destruct (ready_playback p l) as (Hp & Hc & Hn & _ & _ & Hts).
    unfold anyOrderInv. rewrite Hp, Hc, Hn, Hts.
    split; [done|]. split; [done|]. left. simpl. rewrite Nat.mod_small; lia.
  - by apply anyOrderInv_step.
Qed.

(** *** Metadata that settles late *)

(** C2, as the claim states it, fails.  On [A, B, C] the request issued for
    index 0 is still in flight when two "next" transitions have completed
    and [currentIndex] is 2; when it settles, its record replaces the
    overlay's data. *)
Lemma stale_metadata_is_applied :
  let s := run sampleProps (ready sampleProps samplePhotos)
             [KeyDown "ArrowRight"; TimeoutFires; KeyDown "ArrowRight"; TimeoutFires] in
  let s' := step sampleProps s (ExifSettles 0 (JS.Ok sampleRecord)) in
  exifRequests s !! 0 = Some {| issuedFor := 0; requestedUrl := Some "A.jpg" |}
  /\ currentIndex s = 2
  /\ exifData s = JS.Null
  /\ exifData s' = sampleRecord
  /\ exifData s' <> exifData s.
Proof. simpl. repeat split. discriminate. Qed.

(** C2 (amended). When a metadata request settles, its record is applied to
    the overlay state whatever index it was issued for and whatever
    [currentIndex] is by then; [currentIndex] itself is not touched. *)
Theorem settled_metadata_is_applied p s k req data :
  exifRequests s !! k = Some req ->
  let s' := step p s (ExifSettles k (JS.Ok data)) in
  exifData s' = data /\ currentIndex s' = currentIndex s.
Proof.
  intros Hreq. simpl. unfold step. simpl.
  destruct (exifSettles_playback k (JS.Ok data) s) as (_ & Hc & _).
  rewrite Hc, Nat.eqb_refl. split; [|done].
  unfold exifSettles. by rewrite Hreq.
Qed.

Lemma settled_metadata_is_applied_witness :
  let s := run sampleProps (ready sampleProps samplePhotos)
             [KeyDown "ArrowRight"; TimeoutFires; KeyDown "ArrowRight"; TimeoutFires] in
  let s' := step sampleProps s (ExifSettles 0 (JS.Ok sampleRecord)) in
  exifData s' = sampleRecord /\ currentIndex s' = 2.
Proof.
  exact (settled_metadata_is_applied sampleProps
           (run sampleProps (ready sampleProps samplePhotos)
              [KeyDown "ArrowRight"; TimeoutFires; KeyDown "ArrowRight"; TimeoutFires])
           0 {| issuedFor := 0; requestedUrl := Some "A.jpg" |} sampleRecord eq_refl).
Defined.

(** *** Events never touch the photo list *)

Lemma handle_photos e s : photos (handle e s) = photos s.
Proof.
  destruct e as [key| | |k o]; simpl.
  - unfold handleKeyPress, goToNextPhoto, goToPreviousPhoto.
    repeat (destruct (_ || _); try done); by destruct (_ =? _).
  - unfold intervalTick, goToNextPhoto.
    destruct (_ || _); [done|]. by destruct (_ =? _).
  - unfold timeoutFires. by destruct (timeouts s).
  - by destruct (exifSettles_playback k o s) as (? & _).
Qed.

Lemma step_photos p s e : photos (step p s e) = photos s.
Proof.
  unfold step. destruct (_ =? _); [apply handle_photos|].
  destruct (exifEffect_playback p (handle e s)) as (-> & _). apply handle_photos.
Qed.


End Playback.

(** ** Shuffling *)

Section Shuffle.
Import Slideshow.

Implicit Types (h : gmap nat (list string)) (a : list string) (r : Random).

Lemma floor_mul_lt r n : 0 < n -> floor_mul r n < n.
Proof.
  intros Hn. unfold floor_mul.
  pose proof (in_unit_interval r) as Hr. apply Nat.ltb_lt in Hr.
  apply Nat.Div0.div_lt_upper_bound. nia.
Qed.




Lemma swap_length a i j : length (swap a i j) = length a.
Proof.
  unfold swap. destruct (a !! i), (a !! j); try done.
  by rewrite !length_insert.
Qed.

(** Within the array both reads of the exchange succeed. *)
Lemma swap_in_range a i j :
  j <= i -> i < length a ->
  exists x y, a !! i = Some x /\ a !! j = Some y
    /\ swap a i j = <[j := x]> (<[i := y]> a).
Proof.
  intros Hj Hi.
  destruct (lookup_lt_is_Some_2 a i Hi) as [x Hx].
  destruct (lookup_lt_is_Some_2 a j ltac:(lia)) as [y Hy].
  exists x, y. unfold swap. by rewrite Hx, Hy.
Qed.

(** Every exchange of the loop of [shuffleArray] stays within the array. *)
Lemma shuffle_loop_in_range random calls i a :
  i < length a -> exchangesInRange random calls i a.
Proof.
  revert calls a. induction i as [|i IH]; intros calls a Hi; [done|].
  cbn [exchangesInRange]. cbv zeta.
  pose proof (floor_mul_lt (random calls) (S i + 1) ltac:(lia)) as Hj.
  split; [split; lia|]. apply IH. rewrite swap_length. lia.
Qed.






(** A freshly mounted component that loads a non-empty list is left in the
    state [ready] of the list it stored. *)
Lemma loadPhotos_reaches_ready p random calls h photoList a :
  h !! photoList = Some a ->
  a <> [] ->
  let loaded := loadPhotos p random calls h (JS.Ok photoList) initialState in
  loaded.2 = ready p (photos loaded.2).
Proof.
  intros Ha Hne loaded. subst loaded. unfold loadPhotos.
  assert (Hlen : (length (default [] (h !! photoList)) =? 0) = false).
  { rewrite Ha. simpl. apply Nat.eqb_neq. by destruct a. }
  rewrite Hlen.
  destruct (if shuffleMode p then _ else _) as [h' finalPhotoList].
  simpl fst. simpl snd. unfold ready.
  change (setError None (setIsLoading true initialState)) with initialState.
  by destruct (exifEffect_playback p
                 (setIsLoading false
                    (setPhotos (default [] (h' !! finalPhotoList)) initialState)))
    as (-> & _).
Qed.

(** The scenario list under the sample draws: the first draw, 1/4, exchanges
    the last photo with the first; the second, 1/2, leaves the middle one. *)
Example shuffle_sample :
  let h : gmap nat (list string) := {[ 0 := samplePhotos ]} in
  photos (loadPhotos shufflingProps sampleRandom 0 h (JS.Ok 0) initialState).2
  = ["C.jpg"; "B.jpg"; "A.jpg"].
Proof. vm_compute. reflexivity. Qed.

End Shuffle.

(** ** The settings store *)

Section Settings.
Import JS ConfigService.
Context `{Builtins} `{SettingsForm.Browser}.

Implicit Types (config blob : Value) (st : Storage).

(** *** Validation *)








(** *** Loading and migration *)

(** C9.  [loadConfig] never throws, and every failure of the load yields
    null: storage that cannot be accessed, nothing stored, text that does
    not parse, a parsed value whose version cannot be read.  When the parsed
    blob's version is not the current one, [migrateConfig] does not throw
    either: it returns the blob's [data] when that is present (truthy), and
    the blob itself otherwise, and that is what [loadConfig] returns. *)
Theorem loadConfig_never_throws_and_migration_is_total st :
  (exists v, loadConfig st = Ok v)
  /\ (accessible st = false -> loadConfig st = Ok Null)
  /\ (accessible st = true -> items st !! CONFIG_KEY = None -> loadConfig st = Ok Null)
  /\ (forall text e,
        accessible st = true -> items st !! CONFIG_KEY = Some text ->
        JSON_parse text = Throw e -> loadConfig st = Ok Null)
  /\ (forall text blob,
        accessible st = true -> items st !! CONFIG_KEY = Some text ->
        JSON_parse text = Ok blob -> blob = Null \/ blob = Undefined ->
        loadConfig st = Ok Null)
  /\ (forall text blob version,
        accessible st = true -> items st !! CONFIG_KEY = Some text -> text <> "" ->
        JSON_parse text = Ok blob ->
        get blob "version" = Ok version ->
        strict_eq_string version CONFIG_VERSION = false ->
        exists data,
          get blob "data" = Ok data
          /\ migrateConfig blob = Ok (if truthy data then data else blob)
          /\ loadConfig st = Ok (if truthy data then data else blob)
          /\ (forall props, data = Object props -> loadConfig st = Ok data)
          /\ (data = Undefined -> loadConfig st = Ok blob)).
Proof.
  split; [|split; [|split; [|split; [|split]]]].
  - unfold loadConfig. destruct (_ ≫= _) as [v|e]; simpl; eauto.
  - intros Hacc. unfold loadConfig, getItem. by rewrite Hacc.
  - intros Hacc Hnone. unfold loadConfig, getItem. by rewrite Hacc, Hnone.
  - intros text e Hacc Hsome Hparse. unfold loadConfig, getItem.
    rewrite Hacc, Hsome. simpl. destruct (String.eqb text ""); [done|].
    by rewrite Hparse.
  - intros text blob Hacc Hsome Hparse Hblob. unfold loadConfig, getItem.
    rewrite Hacc, Hsome. simpl. destruct (String.eqb text ""); [done|].
    rewrite Hparse. by destruct Hblob as [-> | ->].
  - intros text blob version Hacc Hsome Htext Hparse Hversion Hmismatch.
    assert (Hdata : exists data, get blob "data" = Ok data).
    { destruct blob; simpl in *; try discriminate; eauto. }
    destruct Hdata as [data Hdata]. exists data.
    assert (Hmig : migrateConfig blob = Ok (if truthy data then data else blob)).
    { unfold migrateConfig. rewrite Hdata. done. }
    assert (Hload : loadConfig st = Ok (if truthy data then data else blob)).
    { unfold loadConfig, getItem. rewrite Hacc, Hsome. simpl.
      apply String.eqb_neq in Htext. rewrite Htext, Hparse. simpl.
      rewrite Hversion. simpl. rewrite Hmismatch. simpl.
      by rewrite Hmig. }
    repeat split; try done.
    + intros props ->. by rewrite Hload.
    + intros ->. by rewrite Hload.
Qed.

End Settings.

(** *** The settings store on the samples *)



(** A duration of 10 seconds passes the form and is stored. *)
Example requestSubmit_stores_what_the_form_accepts :
  exists st',
    @SettingsForm.requestSubmit SettingsForm.decimalBuiltins SettingsForm.sampleBrowser
       "2024-05-01T10:00:00.000Z"
       ConfigService.slideTransitionConfig ConfigService.savedBefore
    = JS.Ok {| ConfigService.storage := st'; ConfigService.alerts := [] |}
    /\ ConfigService.items st' !! ConfigService.CONFIG_KEY = Some "{}".
Proof. eexists. split; [reflexivity|]. apply lookup_insert_eq. Qed.

Lemma loadConfig_never_throws_and_migration_is_total_witness :
  @ConfigService.loadConfig ConfigService.sampleBuiltins ConfigService.legacyStorage
  = JS.Ok ConfigService.legacyData.
Proof.
  destruct (@loadConfig_never_throws_and_migration_is_total ConfigService.sampleBuiltins
              ConfigService.legacyStorage) as (_ & _ & _ & _ & _ & Hmigrate).
  destruct (Hmigrate ConfigService.legacyText ConfigService.legacyBlob (JS.String "0.9"))
    as (data & Hdata & _ & _ & Hobject & _);
    [reflexivity | reflexivity | discriminate | reflexivity | reflexivity | reflexivity |].
  injection Hdata as <-. by apply (Hobject _ eq_refl).
Defined.

(** A stored value with no [data]: the blob itself comes back. *)
Example loadConfig_returns_blob_without_data :
  @ConfigService.loadConfig ConfigService.sampleBuiltins
     {| ConfigService.accessible := true; ConfigService.quotaExceeded := false;
        ConfigService.items := {[ ConfigService.CONFIG_KEY := "42" ]} |}
  = JS.Ok (JS.Number (JS.Fin 42)).
Proof. reflexivity. Qed.

(** ** The metadata extractor *)

Section Extractor.
Import JS ExifUtils.
Context `{Builtins} `{Division} `{World}.

Lemma getLocationName_never_throws latitude longitude :
  exists v, getLocationName latitude longitude = Ok v.
Proof. unfold getLocationName. destruct (_ ≫= _); simpl; eauto. Qed.

Lemma getLocationName_failure latitude longitude :
  reverseGeocodingFails latitude longitude ->
  getLocationName latitude longitude = Ok Null.
Proof.
  unfold reverseGeocodingFails, getLocationName.
  destruct (fetch_reverse latitude longitude) as [response|e]; [|done].
  intros [Hok | [e He]]; simpl.
  - by rewrite Hok.
  - destruct (ok response); simpl; [|done]. by rewrite He.
Qed.

Ltac run_extraction :=
  repeat match goal with
  | |- context [get ?v ?k ≫= _] => destruct (get v k); simpl; [|by left]
  | |- context [optional_trim ?v ≫= _] => destruct (optional_trim v); simpl; [|by left]
  | |- context [formatExposureTime ?v ≫= _] =>
      destruct (formatExposureTime v); simpl; [|by left]
  end.

(** [extractExifData] settles with null or with a record; it never throws. *)
Lemma extractExifData_null_or_record imageUrl :
  extractExifData imageUrl = Ok Null
  \/ exists props, extractExifData imageUrl = Ok (Object props).
Proof.
  unfold extractExifData.
  destruct (fetch imageUrl) as [response|e]; simpl; [|by left].
  destruct (blob response) as [b|e]; simpl; [|by left].
  destruct (exifr_parse b) as [exif|e]; simpl; [|by left].
  destruct (negb (truthy exif)); simpl; [by left|].
  run_extraction.
  destruct (truthy _ && truthy _); simpl; [|right; eauto].
  destruct (getLocationName _ _); simpl; right; eauto.
Qed.

Lemma optional_trim_text v :
  textOrAbsent v = true -> exists t, optional_trim v = Ok t.
Proof. destruct v; try done; simpl; eauto. Qed.

Lemma optional_trim_not_text v :
  textOrAbsent v = false -> exists e, optional_trim v = Throw e.
Proof. destruct v; try done; simpl; eauto. Qed.

Lemma formatExposureTime_number v :
  numberOrAbsent v = true -> exists t, formatExposureTime v = Ok t.
Proof.
  destruct v as [| |b|n|s|props]; try done; unfold formatExposureTime.
  - simpl. eauto.
  - simpl. eauto.
  - destruct (negb (truthy (Number n))); [eauto|].
    destruct (ge (Number n) (Fin 1)); eauto.
Qed.

(** The record [extractExifData] builds from tags of the types [exifr]
    delivers: the coordinates as read (null when falsy), and a
    [locationName] only when both coordinates are truthy -- then it is what
    [getLocationName] settled with. *)
Lemma extractExifData_record imageUrl response b tags :
  fetch imageUrl = Ok response -> blob response = Ok b ->
  exifr_parse b = Ok (Object tags) ->
  tagsTyped tags = true ->
  exists props,
    extractExifData imageUrl = Ok (Object props)
    /\ lookup_prop "latitude" props = or (lookup_prop "latitude" tags) Null
    /\ lookup_prop "longitude" props = or (lookup_prop "longitude" tags) Null
    /\ (if truthy (lookup_prop "latitude" tags) && truthy (lookup_prop "longitude" tags)
        then getLocationName (lookup_prop "latitude" tags) (lookup_prop "longitude" tags)
             = Ok (lookup_prop "locationName" props)
        else lookup_prop "locationName" props = Undefined).
Proof.
  intros Hf Hb Hp Htyped.
  apply andb_true_iff in Htyped as [Htext Hnumber].
  apply andb_true_iff in Htext as [Htext HLens].
  apply andb_true_iff in Htext as [HMake HModel].
  destruct (optional_trim_text _ HMake) as [make Emake].
  destruct (optional_trim_text _ HModel) as [model Emodel].
  destruct (optional_trim_text _ HLens) as [lens Elens].
  destruct (formatExposureTime_number _ Hnumber) as [exposure Eexposure].
  unfold extractExifData.
  rewrite Hf. cbn [mbind result_bind try_catch]. rewrite Hb.
  cbn [mbind result_bind]. rewrite Hp.
  cbn [mbind result_bind truthy negb get].
  rewrite Emake, Emodel, Elens, Eexposure.
  cbn [mbind result_bind].
  set (latitude := lookup_prop "latitude" tags).
  set (longitude := lookup_prop "longitude" tags).
  change (lookup_prop "latitude" (_ :: _)) with (or latitude Null).
  change (lookup_prop "longitude" (_ :: _)) with (or longitude Null).
  assert (Hor : forall v, truthy (or v Null) = truthy v).
  { intros v. unfold or. by destruct (truthy v) eqn:E. }
  rewrite !Hor.
  destruct (truthy latitude && truthy longitude) eqn:Hboth.
  - apply andb_true_iff in Hboth as [Hlat Hlon].
    assert (Hkeep : forall v, truthy v = true -> or v Null = v).
    { intros v Hv. unfold or. by rewrite Hv. }
    rewrite !(Hkeep latitude), !(Hkeep longitude) by done.
    destruct (getLocationName_never_throws latitude longitude) as [name Hname].
    rewrite Hname. cbn [mbind result_bind try_catch].
    eexists. split; [reflexivity|].
    split; [reflexivity|]. split; reflexivity.
  - cbn [try_catch]. eexists. split; [reflexivity|].
    split; [reflexivity|]. split; reflexivity.
Qed.

(** C8 (amended).  For every photo URL [extractExifData] settles with a
    record or with null and never throws; it settles with null when the
    image cannot be fetched, when its bytes cannot be read, when the parser
    throws, when the image carries no metadata and when a text tag is
    neither a string nor absent.  On tags of the types [exifr] delivers it
    settles with a record.  When both coordinates are truthy (present and
    not 0) and the reverse-geocoding lookup fails, that record has
    [locationName] null, and [latitude] and [longitude] are the coordinates
    read from the image. *)
Theorem extractExifData_record_or_null imageUrl :
  (extractExifData imageUrl = Ok Null
   \/ exists props, extractExifData imageUrl = Ok (Object props))
  /\ (forall e, fetch imageUrl = Throw e -> extractExifData imageUrl = Ok Null)
  /\ (forall response e,
        fetch imageUrl = Ok response -> blob response = Throw e ->
        extractExifData imageUrl = Ok Null)
  /\ (forall response b e,
        fetch imageUrl = Ok response -> blob response = Ok b ->
        exifr_parse b = Throw e ->
        extractExifData imageUrl = Ok Null)
  /\ (forall response b exif,
        fetch imageUrl = Ok response -> blob response = Ok b ->
        exifr_parse b = Ok exif -> truthy exif = false ->
        extractExifData imageUrl = Ok Null)
  /\ (forall response b tags,
        fetch imageUrl = Ok response -> blob response = Ok b ->
        exifr_parse b = Ok (Object tags) -> textTagsTyped tags = false ->
        extractExifData imageUrl = Ok Null)
  /\ (forall response b tags,
        fetch imageUrl = Ok response -> blob response = Ok b ->
        exifr_parse b = Ok (Object tags) -> tagsTyped tags = true ->
        exists props,
          extractExifData imageUrl = Ok (Object props)
          /\ (truthy (lookup_prop "latitude" tags) = true ->
              truthy (lookup_prop "longitude" tags) = true ->
              reverseGeocodingFails (lookup_prop "latitude" tags)
                                    (lookup_prop "longitude" tags) ->
              lookup_prop "locationName" props = Null
              /\ lookup_prop "latitude" props = lookup_prop "latitude" tags
              /\ lookup_prop "longitude" props = lookup_prop "longitude" tags)).
Proof.
  split; [apply extractExifData_null_or_record|].
  split; [|split; [|split; [|split; [|split]]]].
  - intros e He. unfold extractExifData. by rewrite He.
  - intros response e Hf Hb. unfold extractExifData. rewrite Hf. simpl. by rewrite Hb.
  - intros response b e Hf Hb Hp. unfold extractExifData.
    rewrite Hf. simpl. rewrite Hb. simpl. by rewrite Hp.
  - intros response b exif Hf Hb Hp Hfalsy. unfold extractExifData.
    rewrite Hf. simpl. rewrite Hb. simpl. rewrite Hp. simpl. by rewrite Hfalsy.
  - intros response b tags Hf Hb Hp Htext. unfold extractExifData.
    rewrite Hf. cbn [mbind result_bind try_catch]. rewrite Hb.
    cbn [mbind result_bind]. rewrite Hp.
    cbn [mbind result_bind truthy negb get].
    unfold textTagsTyped in Htext.
    destruct (textOrAbsent (lookup_prop "Make" tags)) eqn:HMake.
    2:{ destruct (optional_trim_not_text _ HMake) as [e ->]. done. }
    destruct (optional_trim_text _ HMake) as [make ->]. cbn [mbind result_bind].
    destruct (textOrAbsent (lookup_prop "Model" tags)) eqn:HModel.
    2:{ destruct (optional_trim_not_text _ HModel) as [e ->]. done. }
    destruct (optional_trim_text _ HModel) as [model ->]. cbn [mbind result_bind].
    simpl in Htext.
    destruct (optional_trim_not_text _ Htext) as [e ->]. done.
  - intros response b tags Hf Hb Hp Htyped.
    destruct (extractExifData_record imageUrl response b tags Hf Hb Hp Htyped)
      as (props & Hres & Hlat & Hlon & Hname).
    exists props. split; [done|].
    intros Htlat Htlon Hfail. rewrite Htlat, Htlon in Hname. simpl in Hname.
    rewrite (getLocationName_failure _ _ Hfail) in Hname.
    injection Hname as <-. rewrite Hlat, Hlon. unfold or.
    by rewrite Htlat, Htlon.
Qed.

End Extractor.

(** The Paris photo while the geocoding service is unreachable: the record
    keeps its coordinates and has no place name. *)
Lemma extractExifData_record_or_null_witness :
  exists props,
    @ExifUtils.extractExifData ConfigService.sampleBuiltins ExifUtils.noDivision
       ExifUtils.offlineGeocoder
       "https://family-photos.s3.eu-west-1.amazonaws.com/photos/paris.jpg"
    = JS.Ok (JS.Object props)
    /\ JS.lookup_prop "locationName" props = JS.Null
    /\ JS.lookup_prop "latitude" props = JS.Number (JS.Fin (488566 # 10000))
    /\ JS.lookup_prop "longitude" props = JS.Number (JS.Fin (23522 # 10000)).
Proof.
  destruct (@extractExifData_record_or_null ConfigService.sampleBuiltins
              ExifUtils.noDivision ExifUtils.offlineGeocoder
              "https://family-photos.s3.eu-west-1.amazonaws.com/photos/paris.jpg")
    as (_ & _ & _ & _ & _ & _ & Hrecord).
  destruct (Hrecord _ [] _ eq_refl eq_refl eq_refl eq_refl)
    as (props & Hres & Hfail).
  exists props. split; [exact Hres|].
  apply Hfail; first [reflexivity | exact I].
Defined.

(** C8, as the claim states it, fails on the equator.  The photo carries
    both coordinates, latitude 0 among them, and the geocoding service
    cannot be reached: the record has [latitude] null, and no
    [locationName] at all rather than a null one. *)
Lemma zero_coordinate_is_not_kept :
  JS.get ExifUtils.equatorTags "latitude" = JS.Ok (JS.Number (JS.Fin 0))
  /\ @ExifUtils.reverseGeocodingFails ExifUtils.offlineGeocoderAtEquator
       (JS.Number (JS.Fin 0)) (JS.Number (JS.Fin (-(784558 # 10000))))
  /\ exists props,
       @ExifUtils.extractExifData ConfigService.sampleBuiltins ExifUtils.noDivision
          ExifUtils.offlineGeocoderAtEquator
          "https://family-photos.s3.eu-west-1.amazonaws.com/photos/mitad-del-mundo.jpg"
       = JS.Ok (JS.Object props)
       /\ JS.lookup_prop "latitude" props = JS.Null
       /\ JS.lookup_prop "latitude" props <> JS.Number (JS.Fin 0)
       /\ JS.lookup_prop "longitude" props = JS.Number (JS.Fin (-(784558 # 10000)))
       /\ JS.lookup_prop "locationName" props = JS.Undefined
       /\ JS.lookup_prop "locationName" props <> JS.Null.
Proof.
  split; [reflexivity|]. split; [exact I|].
  eexists. split; [reflexivity|]. by repeat split.
Qed.

(* ===================================================================== *)
(** * Part II, continued -- further properties of the code                *)
(* ===================================================================== *)

(** ** The playback engine: ranges, round trips, pausing *)

Section PlaybackRanges.
Import Slideshow.

Implicit Types (s : State) (t : Timeout) (p : Props) (l : list string).

Lemma inRangeInv_exifEffect p l s : inRangeInv l s -> inRangeInv l (exifEffect p s).
Proof.
  intros (Hp & Hc & Hn & Hts & Hrs). unfold exifEffect.
  destruct (_ || _); [done|].
  repeat split; try done. simpl.
  apply Forall_app. split; [done|]. apply Forall_singleton. simpl.
  by rewrite Hp.
Qed.

Lemma inRangeInv_schedule l s nav i :
  inRangeInv l s -> i < length l ->
  inRangeInv l
    (setTimeout {| scheduledBy := nav; target := i; capturedLength := length (photos s) |}
       (setNextIndex i (setIsTransitioning true s))).
Proof.
  intros (Hp & Hc & Hn & Hts & Hrs) Hi.
  repeat split; try done. simpl.
  apply Forall_app. split; [done|]. apply Forall_singleton. simpl.
  by rewrite Hp.
Qed.

Lemma inRangeInv_handle l s e : inRangeInv l s -> inRangeInv l (handle e s).
Proof.
  intros Hinv. pose proof Hinv as (Hp & Hc & Hn & Hts & Hrs).
  assert (Hnext : inRangeInv l (goToNextPhoto s)).
  { unfold goToNextPhoto. destruct (_ =? _); [done|].
    apply inRangeInv_schedule; [done|].
    rewrite Hp. apply Nat.mod_upper_bound. lia. }
  destruct e as [key| | |k o]; simpl.
  - unfold handleKeyPress.
    destruct (_ || _); [done|]. destruct (_ || _).
    + unfold goToPreviousPhoto. destruct (_ || _); [done|].
      apply inRangeInv_schedule; [done|].
      rewrite Hp. fold (backwardTarget (length l) (currentIndex s)).
      by apply backwardTarget_lt.
    + by destruct (_ || _).
  - unfold intervalTick. by destruct (_ || _).
  - unfold timeoutFires. destruct (timeouts s) as [|t rest] eqn:E; [done|].
    apply Forall_cons in Hts as [[Ht Hl] Hts].
    repeat split; try done. intros _. simpl. rewrite Hl.
    apply Nat.mod_upper_bound. lia.
  - unfold exifSettles. destruct (exifRequests s !! k) eqn:E; [|done].
    assert (Hdel : Forall (fun r => requestedUrl r = l !! issuedFor r
                                     /\ issuedFor r < length l)
                     (delete k (exifRequests s))).
    { by apply Forall_delete. }
    by destruct o.
Qed.

Lemma reachable_inRange p l s : l <> [] -> reachable p l s -> inRangeInv l s.
Proof.
  intros Hne Hr. induction Hr as [|s e _ IH].
  - unfold ready. apply inRangeInv_exifEffect.
    repeat split; simpl; try done.
    destruct l; [done|]. simpl. lia.
  - unfold step. destruct (_ =? _); [by apply inRangeInv_handle|].
    by apply inRangeInv_exifEffect, inRangeInv_handle.
Qed.

(** X1. Whatever the order of events on a non-empty list, [currentIndex] is
    an index of the list (the displayed photo exists) and so is the target
    of every pending transition; on a list of at least two photos
    [nextIndex] is one as well. *)
Theorem indices_stay_in_range p l s :
  l <> [] ->
  reachable p l s ->
  is_Some (photos s !! currentIndex s)
  /\ Forall (fun t => is_Some (photos s !! target t)) (timeouts s)
  /\ (2 <= length l -> is_Some (photos s !! nextIndex s)).
Proof.
  intros Hne Hr.
  destruct (reachable_inRange p l s Hne Hr) as (Hp & Hc & Hn & Hts & _).
  rewrite Hp. split; [by apply lookup_lt_is_Some_2|]. split.
  - eapply Forall_impl; [exact Hts|]. intros t [Ht _]. by apply lookup_lt_is_Some_2.
  - intros H2. by apply lookup_lt_is_Some_2, Hn.
Qed.

Lemma indices_stay_in_range_witness :
  let s := run sampleProps (ready sampleProps samplePhotos)
             [KeyDown "ArrowRight"; KeyDown "ArrowRight"; KeyDown "ArrowLeft";
              TimeoutFires] in
  is_Some (photos s !! currentIndex s)
  /\ Forall (fun t => is_Some (photos s !! target t)) (timeouts s)
  /\ (2 <= 3 -> is_Some (photos s !! nextIndex s)).
Proof.
  apply (indices_stay_in_range sampleProps samplePhotos); [discriminate|].
  repeat apply reachable_step. apply reachable_ready.
Defined.

(** X2. Every metadata request in flight asks for the photo at the index it
    was issued for, and that index is an index of the list. *)
Theorem requests_ask_for_the_indexed_photo p l s :
  l <> [] ->
  reachable p l s ->
  Forall (fun r => requestedUrl r = photos s !! issuedFor r
                   /\ is_Some (photos s !! issuedFor r))
    (exifRequests s).
Proof.
  intros Hne Hr.
  destruct (reachable_inRange p l s Hne Hr) as (Hp & _ & _ & _ & Hrs).
  rewrite Hp. eapply Forall_impl; [exact Hrs|].
  intros r [Hu Hi]. split; [done|]. by apply lookup_lt_is_Some_2.
Qed.

Lemma requests_ask_for_the_indexed_photo_witness :
  let s := run sampleProps (ready sampleProps samplePhotos)
             [KeyDown "ArrowRight"; TimeoutFires] in
  Forall (fun r => requestedUrl r = photos s !! issuedFor r
                   /\ is_Some (photos s !! issuedFor r))
    (exifRequests s).
Proof.
  apply (requests_ask_for_the_indexed_photo sampleProps samplePhotos); [discriminate|].
  repeat apply reachable_step. apply reachable_ready.
Defined.

(** *** A transition always has its timeout *)

Lemma pending_handle s e :
  (isTransitioning s = true -> timeouts s <> []) ->
  isTransitioning (handle e s) = true -> timeouts (handle e s) <> [].
Proof.
  intros Hinv.
  assert (Hnext : isTransitioning (goToNextPhoto s) = true ->
                  timeouts (goToNextPhoto s) <> []).
  { unfold goToNextPhoto. destruct (_ =? _); [done|]. simpl.
    intros _ E. by apply app_eq_nil in E as [_ E]. }
  destruct e as [key| | |k o]; simpl.
  - unfold handleKeyPress.
    destruct (_ || _); [done|]. destruct (_ || _).
    + unfold goToPreviousPhoto. destruct (_ || _); [done|]. simpl.
      intros _ E. by apply app_eq_nil in E as [_ E].
    + by destruct (_ || _).
  - unfold intervalTick. by destruct (_ || _).
  - unfold timeoutFires. destruct (timeouts s) as [|t rest] eqn:E; [|done].
    intros Hbusy. by apply Hinv in Hbusy.
  - destruct (exifSettles_playback k o s) as (_ & _ & _ & -> & _ & ->). done.
Qed.

Lemma settle_clears s :
  timeouts (settle s) = []
  /\ (timeouts s <> [] -> isTransitioning (settle s) = false)
  /\ (timeouts s = [] -> isTransitioning (settle s) = isTransitioning s).
Proof.
  destruct (timeouts s) as [|t ts] eqn:E using rev_ind.
  - unfold settle. rewrite E. done.
  - destruct (settle_youngest s ts t E) as (_ & _ & _ & Ht & _ & Hts).
    split; [done|]. split; [done|]. intros E'. by apply app_eq_nil in E' as [_ E'].
Qed.

(** X3. Whatever the order of events, a state in transition has a timeout
    pending that will end it: once the pending timeouts have fired no
    transition is in flight and none is scheduled. *)
Theorem transition_never_hangs p l s :
  reachable p l s ->
  (isTransitioning s = true -> timeouts s <> [])
  /\ isTransitioning (settle s) = false
  /\ timeouts (settle s) = [].
Proof.
  intros Hr.
  assert (Hpending : isTransitioning s = true -> timeouts s <> []).
  { induction Hr as [|s e _ IH].
    - by destruct (ready_playback p l) as (_ & _ & _ & -> & _).
    - unfold step. destruct (_ =? _); [by apply pending_handle|].
      destruct (exifEffect_playback p (handle e s)) as (_ & _ & _ & -> & _ & ->).
      by apply pending_handle. }
  destruct (settle_clears s) as (Hts & Hbusy & Hidle).
  split; [done|]. split; [|done].
  destruct (timeouts s) as [|t ts] eqn:E.
  - rewrite Hidle by done. destruct (isTransitioning s); [|done].
    by destruct Hpending.
  - by apply Hbusy.
Qed.

Lemma transition_never_hangs_witness :
  let s := run sampleProps (ready sampleProps samplePhotos)
             [KeyDown "ArrowRight"; KeyDown "ArrowRight"; TimeoutFires;
              KeyDown "ArrowLeft"] in
  (isTransitioning s = true -> timeouts s <> [])
  /\ isTransitioning (settle s) = false
  /\ timeouts (settle s) = [].
Proof.
  apply (transition_never_hangs sampleProps samplePhotos).
  repeat apply reachable_step. apply reachable_ready.
Defined.

(** *** Backward steps *)

Lemma previousAndComplete_spec s :
  photos s <> [] -> isTransitioning s = false ->
  photos (previousAndComplete s) = photos s
  /\ currentIndex (previousAndComplete s)
     = backwardTarget (length (photos s)) (currentIndex s)
  /\ isTransitioning (previousAndComplete s) = false.
Proof.
  intros Hne Hidle. unfold previousAndComplete.
  destruct (settle_youngest (goToPreviousPhoto s) (timeouts s)
              {| scheduledBy := Backward;
                 target := backwardTarget (length (photos s)) (currentIndex s);
                 capturedLength := length (photos s) |})
    as (Hp & Hc & _ & Ht & _).
  { by rewrite goToPreviousPhoto_idle. }
  rewrite Hp, Hc, Ht. by rewrite goToPreviousPhoto_idle.
Qed.

Lemma backwardTarget_mod n i :
  i < n -> backwardTarget n i = (i + (n - 1)) mod n.
Proof.
  intros Hi. unfold backwardTarget. destruct (Nat.eqb_spec i 0) as [->|Hnz].
  - simpl. rewrite Nat.mod_small; lia.
  - replace (i + (n - 1)) with (i - 1 + 1 * n) by lia.
    rewrite Nat.Div0.mod_add. rewrite Nat.mod_small; lia.
Qed.

Lemma iter_previousAndComplete s k :
  photos s <> [] ->
  isTransitioning s = false ->
  currentIndex s < length (photos s) ->
  photos (Nat.iter k previousAndComplete s) = photos s
  /\ isTransitioning (Nat.iter k previousAndComplete s) = false
  /\ currentIndex (Nat.iter k previousAndComplete s)
     = (currentIndex s + k * (length (photos s) - 1)) mod length (photos s).
Proof.
  intros Hne Hidle Hlt. induction k as [|k (IHp & IHt & IHc)]; simpl.
  - repeat split; try done. rewrite Nat.add_0_r. by rewrite Nat.mod_small.
  - assert (Hne' : photos (Nat.iter k previousAndComplete s) <> []) by by rewrite IHp.
    destruct (previousAndComplete_spec _ Hne' IHt) as (Hp & Hc & Ht).
    rewrite Hp, Hc, Ht, IHp. repeat split; try done.
    rewrite backwardTarget_mod.
    + rewrite IHc, Nat.Div0.add_mod_idemp_l. f_equal. lia.
    + rewrite IHc. apply Nat.mod_upper_bound. lia.
Qed.

(** X4. On a non-empty list of length N, from a state with no transition in
    flight and a valid [currentIndex], "previous" N times, each transition
    allowed to complete, returns [currentIndex] to where it started. *)
Theorem previous_N_times_returns_to_start s :
  photos s <> [] ->
  isTransitioning s = false ->
  currentIndex s < length (photos s) ->
  currentIndex (Nat.iter (length (photos s)) previousAndComplete s) = currentIndex s.
Proof.
  intros Hne Hidle Hlt.
  destruct (iter_previousAndComplete s (length (photos s)) Hne Hidle Hlt) as (_ & _ & ->).
  rewrite Nat.mul_comm, Nat.Div0.mod_add. by apply Nat.mod_small.
Qed.

Lemma previous_N_times_returns_to_start_witness :
  currentIndex (Nat.iter 3 previousAndComplete (ready sampleProps samplePhotos)) = 0.
Proof.
  apply (previous_N_times_returns_to_start (ready sampleProps samplePhotos));
    [discriminate | reflexivity | simpl; lia].
Defined.

(** X5. "next" and "previous" undo each other: on a non-empty list, from a
    valid [currentIndex], a completed "next" followed by a completed
    "previous" shows the photo it started from, and so does "previous"
    followed by "next" when no transition was in flight. *)
Theorem next_and_previous_are_inverse s :
  photos s <> [] ->
  currentIndex s < length (photos s) ->
  currentIndex (previousAndComplete (nextAndComplete s)) = currentIndex s
  /\ (isTransitioning s = false ->
      currentIndex (nextAndComplete (previousAndComplete s)) = currentIndex s).
Proof.
  intros Hne Hlt. split.
  - destruct (nextAndComplete_spec s Hne) as (Hp & Hc & _ & Ht).
    assert (Hne' : photos (nextAndComplete s) <> []) by by rewrite Hp.
    destruct (previousAndComplete_spec _ Hne' Ht) as (_ & -> & _).
    rewrite Hp, Hc. unfold backwardTarget.
    destruct (Nat.eq_dec (currentIndex s + 1) (length (photos s))) as [E|E].
    + rewrite E, Nat.Div0.mod_same. simpl. lia.
    + rewrite Nat.mod_small by lia.
      destruct (Nat.eqb_spec (currentIndex s + 1) 0); lia.
  - intros Hidle.
    destruct (previousAndComplete_spec s Hne Hidle) as (Hp & Hc & _).
    assert (Hne' : photos (previousAndComplete s) <> []) by by rewrite Hp.
    destruct (nextAndComplete_spec _ Hne') as (_ & -> & _).
    rewrite Hp, Hc. unfold backwardTarget.
    destruct (Nat.eqb_spec (currentIndex s) 0) as [E|E].
    + rewrite E. replace (length (photos s) - 1 + 1) with (length (photos s)) by lia.
      apply Nat.Div0.mod_same.
    + replace (currentIndex s - 1 + 1) with (currentIndex s) by lia.
      by apply Nat.mod_small.
Qed.

Lemma next_and_previous_are_inverse_witness :
  let s := nextAndComplete (ready sampleProps samplePhotos) in
  currentIndex (previousAndComplete (nextAndComplete s)) = 1
  /\ (isTransitioning s = false ->
      currentIndex (nextAndComplete (previousAndComplete s)) = 1).
Proof.
  apply (next_and_previous_are_inverse
           (nextAndComplete (ready sampleProps samplePhotos)));
    [discriminate | simpl; lia].
Defined.

(** *** Pausing *)

Lemma paused_step p s e :
  isPaused s = true -> timeouts s = [] -> isKeyDown e = false ->
  currentIndex (step p s e) = currentIndex s
  /\ nextIndex (step p s e) = nextIndex s
  /\ isTransitioning (step p s e) = isTransitioning s
  /\ isPaused (step p s e) = true
  /\ timeouts (step p s e) = [].
Proof.
  intros Hpaused Hts Hkey.
  assert (H' : currentIndex (handle e s) = currentIndex s
               /\ nextIndex (handle e s) = nextIndex s
               /\ isTransitioning (handle e s) = isTransitioning s
               /\ isPaused (handle e s) = true
               /\ timeouts (handle e s) = []).
  { destruct e as [key| | |k o]; simpl; [done| | |].
    - unfold intervalTick. rewrite Hpaused, orb_true_r. done.
    - unfold timeoutFires. rewrite Hts. done.
    - destruct (exifSettles_playback k o s) as (_ & -> & -> & -> & -> & ->). done. }
  destruct H' as (Hc & Hn & Ht & Hq & Hl).
  unfold step. rewrite Hc, Nat.eqb_refl. done.
Qed.

(** X6. While the slideshow is paused and no transition is waiting to
    complete, events that are not key presses (ticks of the auto-advance
    interval, metadata that settles) change neither [currentIndex] nor
    [nextIndex]; the slideshow stays paused and nothing is scheduled. *)
Theorem paused_slideshow_does_not_advance p s es :
  isPaused s = true ->
  timeouts s = [] ->
  Forall (fun e => isKeyDown e = false) es ->
  currentIndex (run p s es) = currentIndex s
  /\ nextIndex (run p s es) = nextIndex s
  /\ isPaused (run p s es) = true
  /\ timeouts (run p s es) = [].
Proof.
  intros Hpaused Hts Hes. revert s Hpaused Hts.
  induction Hes as [|e es He _ IH]; intros s Hpaused Hts; [done|].
  destruct (paused_step p s e Hpaused Hts He) as (Hc & Hn & _ & Hq & Hl).
  unfold run in *. simpl.
  destruct (IH (step p s e) Hq Hl) as (-> & -> & -> & ->). done.
Qed.

Lemma paused_slideshow_does_not_advance_witness :
  let s := run sampleProps (ready sampleProps samplePhotos) [KeyDown " "] in
  let es := [IntervalTick; ExifSettles 0 (JS.Ok sampleRecord); IntervalTick;
             TimeoutFires] in
  currentIndex (run sampleProps s es) = 0
  /\ nextIndex (run sampleProps s es) = 1
  /\ isPaused (run sampleProps s es) = true
  /\ timeouts (run sampleProps s es) = [].
Proof.
  apply (paused_slideshow_does_not_advance sampleProps
           (run sampleProps (ready sampleProps samplePhotos) [KeyDown " "]));
    [reflexivity | reflexivity | by repeat constructor].
Defined.

(** X7. Each of the three pause keys toggles [isPaused] and nothing else:
    pressing the same key twice gives back the whole state. *)
Theorem pause_key_twice_restores_the_state key s :
  key ∈ [" "; "Enter"; "MediaPlayPause"] ->
  isPaused (handleKeyPress key s) = negb (isPaused s)
  /\ handleKeyPress key (handleKeyPress key s) = s.
Proof.
  intros Hkey.
  assert (Htoggle : handleKeyPress key = togglePause).
  { repeat (apply elem_of_cons in Hkey as [-> | Hkey]; [done|]).
    by apply elem_of_nil in Hkey. }
  rewrite Htoggle. split; [done|].
  destruct s. unfold togglePause. simpl. by rewrite negb_involutive.
Qed.

Lemma pause_key_twice_restores_the_state_witness :
  isPaused (handleKeyPress "Enter" (ready sampleProps samplePhotos)) = true
  /\ handleKeyPress "Enter" (handleKeyPress "Enter" (ready sampleProps samplePhotos))
     = ready sampleProps samplePhotos.
Proof.
  apply (pause_key_twice_restores_the_state "Enter" (ready sampleProps samplePhotos)).
  apply list_elem_of_further, list_elem_of_here.
Defined.

(** *** A load that fails *)

Lemma empty_list_step p s e :
  photos s = [] -> timeouts s = [] -> exifRequests s = [] ->
  photos (step p s e) = []
  /\ timeouts (step p s e) = []
  /\ exifRequests (step p s e) = []
  /\ currentIndex (step p s e) = currentIndex s
  /\ nextIndex (step p s e) = nextIndex s
  /\ isTransitioning (step p s e) = isTransitioning s
  /\ exifData (step p s e) = exifData s.
Proof.
  intros Hp Hts Hrs.
  assert (H' : handle e s = s \/ handle e s = togglePause s).
  { destruct e as [key| | |k o]; simpl.
    - unfold handleKeyPress, goToNextPhoto, goToPreviousPhoto. rewrite Hp. simpl.
      repeat (destruct (_ || _); [by eauto|]). by left.
    - unfold intervalTick. rewrite Hp. by left.
    - unfold timeoutFires. rewrite Hts. by left.
    - unfold exifSettles. rewrite Hrs. by left. }
  unfold step.
  destruct H' as [-> | ->]; simpl; by rewrite Nat.eqb_refl.
Qed.

Lemma inert_run p es s :
  photos s = [] -> timeouts s = [] -> exifRequests s = [] ->
  photos (run p s es) = []
  /\ timeouts (run p s es) = []
  /\ exifRequests (run p s es) = []
  /\ currentIndex (run p s es) = currentIndex s
  /\ nextIndex (run p s es) = nextIndex s
  /\ isTransitioning (run p s es) = isTransitioning s
  /\ exifData (run p s es) = exifData s.
Proof.
  revert s. induction es as [|e es IH]; intros s Hp Hts Hrs; [done|].
  destruct (empty_list_step p s e Hp Hts Hrs)
    as (Hp' & Hts' & Hrs' & Hc' & Hn' & Ht' & Hd').
  unfold run in *. simpl.
  destruct (IH (step p s e) Hp' Hts' Hrs') as (-> & -> & -> & -> & -> & -> & ->).
  done.
Qed.

(** X8. When the photo source fails, or resolves with no photo, a freshly
    mounted component shows an error, is no longer loading and keeps an
    empty list; the heap is not touched.  From then on every event leaves
    the indices, the transition flag and the overlay data as they were at
    mount, and nothing is ever scheduled or requested. *)
Theorem failed_load_ends_in_an_inert_error_state p random calls h fetched :
  (match fetched with
   | JS.Throw _ => True
   | JS.Ok photoList => default [] (h !! photoList) = []
   end) ->
  let loaded := loadPhotos p random calls h fetched initialState in
  loaded.1 = h
  /\ is_Some (error loaded.2)
  /\ isLoading loaded.2 = false
  /\ forall es,
       let s := run p loaded.2 es in
       photos s = [] /\ currentIndex s = 0 /\ nextIndex s = 1
       /\ isTransitioning s = false /\ exifData s = JS.Null
       /\ timeouts s = [] /\ exifRequests s = [].
Proof.
  intros Hfailed loaded.
  assert (Hstate : loaded.1 = h /\ is_Some (error loaded.2) /\ isLoading loaded.2 = false
                   /\ photos loaded.2 = [] /\ currentIndex loaded.2 = 0
                   /\ nextIndex loaded.2 = 1 /\ isTransitioning loaded.2 = false
                   /\ exifData loaded.2 = JS.Null
                   /\ timeouts loaded.2 = [] /\ exifRequests loaded.2 = []).
  { subst loaded. unfold loadPhotos. destruct fetched as [photoList|err].
    - rewrite Hfailed. simpl. repeat split; eauto.
    - simpl. repeat split; eauto. }
  destruct Hstate as (Hh & He & Hl & Hp & Hc & Hn & Ht & Hd & Hts & Hrs).
  split; [done|]. split; [done|]. split; [done|].
  intros es s.
  destruct (inert_run p es loaded.2 Hp Hts Hrs) as (Hp' & Hts' & Hrs' & Hc' & Hn' & Ht' & Hd').
  subst s. by rewrite Hp', Hts', Hrs', Hc', Hn', Ht', Hd'.
Qed.

Lemma failed_load_ends_in_an_inert_error_state_witness :
  let loaded := loadPhotos sampleProps sampleRandom 0 ∅
                  (JS.Throw (JS.Error "Failed to fetch photos: Access Denied"))
                  initialState in
  loaded.1 = ∅
  /\ is_Some (error loaded.2)
  /\ isLoading loaded.2 = false
  /\ forall es,
       let s := run sampleProps loaded.2 es in
       photos s = [] /\ currentIndex s = 0 /\ nextIndex s = 1
       /\ isTransitioning s = false /\ exifData s = JS.Null
       /\ timeouts s = [] /\ exifRequests s = [].
Proof.
  apply (failed_load_ends_in_an_inert_error_state sampleProps sampleRandom 0 ∅
           (JS.Throw (JS.Error "Failed to fetch photos: Access Denied"))).
  exact I.
Defined.

(** *** Metadata switched off *)

(** X9. With [exifDisplay.enabled] off no metadata request is ever issued
    and the overlay data stays null, whatever the events. *)
Theorem no_metadata_requests_when_disabled p l s :
  exifEnabled p = false ->
  reachable p l s ->
  exifRequests s = [] /\ exifData s = JS.Null.
Proof.
  intros Hoff Hr.
  assert (Heffect : forall s', exifRequests (exifEffect p s') = exifRequests s'
                               /\ exifData (exifEffect p s') = exifData s').
  { intros s'. unfold exifEffect. rewrite Hoff, orb_true_r. done. }
  induction Hr as [|s e _ [IHr IHd]].
  - unfold ready. by destruct (Heffect (setIsLoading false (setPhotos l initialState)))
      as [-> ->].
  - assert (H' : exifRequests (handle e s) = [] /\ exifData (handle e s) = JS.Null).
    { destruct e as [key| | |k o]; simpl.
      - assert (Hnext : exifRequests (goToNextPhoto s) = []
                        /\ exifData (goToNextPhoto s) = JS.Null).
        { unfold goToNextPhoto. by destruct (_ =? _). }
        unfold handleKeyPress.
        destruct (_ || _); [done|]. destruct (_ || _).
        + unfold goToPreviousPhoto. by destruct (_ || _).
        + by destruct (_ || _).
      - unfold intervalTick, goToNextPhoto.
        destruct (_ || _); [done|]. by destruct (_ =? _).
      - unfold timeoutFires. by destruct (timeouts s).
      - unfold exifSettles. by rewrite IHr. }
    unfold step. destruct (_ =? _); [done|].
    by destruct (Heffect (handle e s)) as [-> ->].
Qed.

Lemma no_metadata_requests_when_disabled_witness :
  let p := {| shuffleMode := false; exifEnabled := false |} in
  let s := run p (ready p samplePhotos)
             [KeyDown "ArrowRight"; TimeoutFires; ExifSettles 0 (JS.Ok sampleRecord)] in
  exifRequests s = [] /\ exifData s = JS.Null.
Proof.
  intros p.
  apply (no_metadata_requests_when_disabled p samplePhotos); [reflexivity|].
  repeat apply reachable_step. apply reachable_ready.
Defined.

(** *** Shuffling short arrays *)

(** X10. [shuffleArray] on an array of at most one element takes no value
    from [Math.random] into account: it returns a fresh array with the same
    elements. *)
Theorem shuffleArray_short_array_is_copied random calls (h : gmap nat (list string))
    array a :
  h !! array = Some a ->
  length a <= 1 ->
  let shuffled := shuffleArray random calls h array in
  shuffled.1 !! shuffled.2 = Some a
  /\ h !! shuffled.2 = None
  /\ shuffled.1 !! array = Some a.
Proof.
  intros Ha Hlen shuffled. subst shuffled. unfold shuffleArray, spread. simpl.
  rewrite lookup_insert_eq, Ha. simpl.
  replace (length a - 1) with 0 by lia. simpl.
  assert (Hfresh : h !! fresh (dom h) = None).
  { apply not_elem_of_dom, is_fresh. }
  split; [apply lookup_insert_eq|]. split; [done|].
  rewrite lookup_insert_ne; [done|]. congruence.
Qed.

Lemma shuffleArray_short_array_is_copied_witness :
  let h : gmap nat (list string) := {[ 0 := singlePhoto ]} in
  let shuffled := shuffleArray sampleRandom 0 h 0 in
  shuffled.1 !! shuffled.2 = Some singlePhoto
  /\ h !! shuffled.2 = None
  /\ shuffled.1 !! 0 = Some singlePhoto.
Proof.
  intros h.
  apply (shuffleArray_short_array_is_copied sampleRandom 0 h 0 singlePhoto);
    [reflexivity | simpl; lia].
Defined.

End PlaybackRanges.

(** ** The settings store: round trips, clearing, failures, start-up *)

Section SettingsRoundTrips.
Import JS ConfigService App.
Context `{Builtins} `{CodeUnits}.

Implicit Types (config : Value) (st : Storage).

(** X11. What [saveConfig] stores, [loadConfig] returns: when the storage
    accepts the write and JSON serialisation round-trips the wrapper (to a
    non-empty text), saving succeeds, loading afterwards yields the saved
    configuration unmigrated, and no other storage key is touched. *)
Theorem save_then_load_round_trip now config st :
  accessible st = true ->
  quotaExceeded st = false ->
  JSON_stringify (wrapperOf now config) <> "" ->
  JSON_parse (JSON_stringify (wrapperOf now config)) = Ok (wrapperOf now config) ->
  exists st',
    saveConfig now config st = Ok st'
    /\ loadConfig st' = Ok config
    /\ forall key, key <> CONFIG_KEY -> items st' !! key = items st !! key.
Proof.
  intros Hacc Hquota Hnonempty Hround.
  eexists. split; [|split].
  - unfold saveConfig, setItem. rewrite Hacc, Hquota. simpl. reflexivity.
  - unfold loadConfig, getItem. simpl. rewrite lookup_insert_eq.
    fold (wrapperOf now config).
    apply String.eqb_neq in Hnonempty. rewrite Hnonempty, Hround. done.
  - intros key Hkey. simpl. by rewrite lookup_insert_ne.
Qed.

(** X12. [clearConfig] forgets the configuration: on accessible storage it
    succeeds, [loadConfig] afterwards returns null, and no other key is
    touched; when the storage cannot be accessed it throws
    "Failed to clear configuration". *)
Theorem clearConfig_forgets_the_configuration st :
  (accessible st = true ->
   exists st',
     clearConfig st = Ok st'
     /\ loadConfig st' = Ok Null
     /\ forall key, key <> CONFIG_KEY -> items st' !! key = items st !! key)
  /\ (accessible st = false ->
      clearConfig st = Throw (Error "Failed to clear configuration")).
Proof.
  split.
  - intros Hacc. eexists. split; [|split].
    + unfold clearConfig, removeItem. rewrite Hacc. simpl. reflexivity.
    + unfold loadConfig, getItem. simpl. by rewrite lookup_delete_eq.
    + intros key Hkey. simpl. by rewrite lookup_delete_ne.
  - intros Hacc. unfold clearConfig, removeItem. by rewrite Hacc.
Qed.

(** X13. When the storage refuses the write (no access, or the quota is
    exceeded) [saveConfig] throws "Failed to save configuration" whatever
    the underlying error, and a submitted configuration with a bucket and a
    region produces exactly that alert and leaves the stored blob as it
    was. *)
Theorem failed_save_alerts_and_keeps_the_storage now config st :
  accessible st = false \/ quotaExceeded st = true ->
  saveConfig now config st = Throw (Error "Failed to save configuration")
  /\ (forall props,
        config = Object props ->
        truthy (lookup_prop "s3Bucket" props) = true ->
        truthy (lookup_prop "s3Region" props) = true ->
        handleSubmit now config st
        = Ok {| storage := st; alerts := ["Failed to save configuration"] |}).
Proof.
  intros Hrefused.
  assert (Hsave : saveConfig now config st
                  = Throw (Error "Failed to save configuration")).
  { unfold saveConfig, setItem.
    destruct Hrefused as [-> | Hq]; [done|].
    destruct (accessible st); simpl; [|done]. by rewrite Hq. }
  split; [done|].
  intros props -> Hb Hr. unfold handleSubmit.
  cbn -[truthy lookup_prop handleSaveConfig]. rewrite Hb.
  cbn -[truthy lookup_prop handleSaveConfig]. rewrite Hr.
  cbn -[handleSaveConfig]. unfold handleSaveConfig. by rewrite Hsave.
Qed.

(** *** Start-up: saved settings over the defaults *)

Lemma lookup_assign_prop k k' v props :
  lookup_prop k (assign_prop k' v props)
  = if String.eqb k k' then v else lookup_prop k props.
Proof.
  induction props as [|[k0 v0] rest IH]; simpl; [done|].
  destruct (String.eqb_spec k' k0) as [<-|Hne]; simpl;
    [by destruct (String.eqb k k')|].
  rewrite IH.
  destruct (String.eqb_spec k k0) as [->|Hne0]; [|done].
  destruct (String.eqb_spec k0 k'); congruence.
Qed.

Lemma lookup_copy_props k target source :
  NoDup source.*1 ->
  lookup_prop k (copy_props target source)
  = if decide (k ∈ source.*1) then lookup_prop k source else lookup_prop k target.
Proof.
  unfold copy_props. revert target.
  induction source as [|[k0 v0] rest IH]; intros target Hnodup; simpl; [done|].
  apply NoDup_cons in Hnodup as [Hfresh Hnodup].
  rewrite IH by done. rewrite lookup_assign_prop.
  destruct (String.eqb_spec k k0) as [->|Hne].
  - rewrite decide_False by done. rewrite decide_True; [done|]. apply list_elem_of_here.
  - destruct (decide (k ∈ rest.*1)) as [Hin|Hout].
    + rewrite decide_True; [done|]. by apply list_elem_of_further.
    + rewrite decide_False; [done|]. intros Hin.
      apply elem_of_cons in Hin as [?|?]; done.
Qed.

(** X14. At start-up a saved configuration object is laid over the defaults
    key by key: a key the saved object has takes the saved value (the nested
    [exifDisplay] object as a whole), every other key keeps its default.
    When nothing usable was saved ([loadConfig] returns a falsy value) the
    configuration stays what it was. *)
Theorem saved_settings_override_defaults st config :
  (forall saved,
     loadConfig st = Ok (Object saved) ->
     NoDup saved.*1 ->
     forall key,
       get (loadConfiguration st config) key
       = if decide (key ∈ saved.*1) then get (Object saved) key
         else get DEFAULT_CONFIG key)
  /\ (forall v, loadConfig st = Ok v -> truthy v = false ->
        loadConfiguration st config = config)
  /\ (forall e, loadConfig st = Throw e -> loadConfiguration st config = config).
Proof.
  split; [|split].
  - intros saved Hload Hnodup key.
    unfold loadConfiguration. rewrite Hload.
    change (truthy (Object saved)) with true. cbv iota.
    unfold spread2.
    assert (Hdefaults : exists defaults,
              DEFAULT_CONFIG = Object defaults
              /\ copy_props [] (own_props DEFAULT_CONFIG) = defaults).
    { eexists. split; reflexivity. }
    destruct Hdefaults as (defaults & -> & ->).
    simpl. rewrite lookup_copy_props by done.
    by destruct (decide _).
  - intros v Hload Hfalsy. unfold loadConfiguration. by rewrite Hload, Hfalsy.
  - intros e Hload. unfold loadConfiguration. by rewrite Hload.
Qed.

End SettingsRoundTrips.

(** *** The settings store on further samples *)

Lemma save_then_load_round_trip_witness :
  exists st',
    @ConfigService.saveConfig ConfigService.echoBuiltins ConfigService.sampleInstant
       ConfigService.slideTransitionConfig ConfigService.savedBefore = JS.Ok st'
    /\ @ConfigService.loadConfig ConfigService.echoBuiltins st'
       = JS.Ok ConfigService.slideTransitionConfig
    /\ forall key, key <> ConfigService.CONFIG_KEY ->
         ConfigService.items st' !! key
         = ConfigService.items ConfigService.savedBefore !! key.
Proof.
  apply (@save_then_load_round_trip ConfigService.echoBuiltins
           ConfigService.sampleInstant ConfigService.slideTransitionConfig
           ConfigService.savedBefore);
    [reflexivity | reflexivity | discriminate | reflexivity].
Defined.

Lemma clearConfig_forgets_the_configuration_witness :
  exists st',
    ConfigService.clearConfig ConfigService.legacyStorage = JS.Ok st'
    /\ @ConfigService.loadConfig ConfigService.sampleBuiltins st' = JS.Ok JS.Null
    /\ forall key, key <> ConfigService.CONFIG_KEY ->
         ConfigService.items st' !! key
         = ConfigService.items ConfigService.legacyStorage !! key.
Proof.
  apply (@clearConfig_forgets_the_configuration ConfigService.sampleBuiltins
           ConfigService.legacyStorage).
  reflexivity.
Defined.

Lemma failed_save_alerts_and_keeps_the_storage_witness :
  @ConfigService.handleSubmit ConfigService.sampleBuiltins ConfigService.sampleInstant
     ConfigService.slideTransitionConfig ConfigService.readOnlyStorage
  = JS.Ok {| ConfigService.storage := ConfigService.readOnlyStorage;
             ConfigService.alerts := ["Failed to save configuration"] |}.
Proof.
  destruct (@failed_save_alerts_and_keeps_the_storage ConfigService.sampleBuiltins
              ConfigService.sampleInstant ConfigService.slideTransitionConfig
              ConfigService.readOnlyStorage) as [_ Hsubmit]; [by right|].
  by apply (Hsubmit _ eq_refl).
Defined.

(** The legacy blob at start-up: its region wins, the display duration is
    the default one. *)
Lemma saved_settings_override_defaults_witness :
  JS.get (@App.loadConfiguration ConfigService.sampleBuiltins App.asciiCodeUnits
            ConfigService.legacyStorage App.DEFAULT_CONFIG) "s3Region"
  = JS.Ok (JS.String "eu-west-1")
  /\ JS.get (@App.loadConfiguration ConfigService.sampleBuiltins App.asciiCodeUnits
               ConfigService.legacyStorage App.DEFAULT_CONFIG) "displayDuration"
     = JS.Ok (JS.Number (JS.Fin 10)).
Proof.
  destruct (@saved_settings_override_defaults ConfigService.sampleBuiltins
              App.asciiCodeUnits ConfigService.legacyStorage App.DEFAULT_CONFIG)
    as [Hmerge _].
  split.
  - rewrite (Hmerge _ eq_refl); [reflexivity|].
    apply (bool_decide_unpack _). reflexivity.
  - rewrite (Hmerge _ eq_refl); [reflexivity|].
    apply (bool_decide_unpack _). reflexivity.
Defined.

(** ** The metadata extractor: place names, grouping *)

Section ExtractorFormats.
Import JS ExifUtils.
Context `{Builtins} `{World} `{Haversine}.

(** X16. [getLocationName] never throws: it settles with null or with a
    string.  When the service answers with an address whose city, state and
    country are non-empty strings, the name is "city, state, country",
    whatever town, village or county the address also has. *)
Theorem getLocationName_null_or_name lat lon :
  (getLocationName lat lon = Ok Null
   \/ exists name, getLocationName lat lon = Ok (String name))
  /\ (forall response data address city state country,
        fetch_reverse lat lon = Ok response ->
        ok response = true ->
        json response = Ok data ->
        get data "address" = Ok (Object address) ->
        lookup_prop "city" address = String city -> city <> "" ->
        lookup_prop "state" address = String state -> state <> "" ->
        lookup_prop "country" address = String country -> country <> "" ->
        getLocationName lat lon
        = Ok (String (city +:+ ", " +:+ state +:+ ", " +:+ country))).
Proof.
  split.
  - unfold getLocationName.
    destruct (fetch_reverse lat lon) as [response|e]; simpl; [|by left].
    destruct (negb (ok response)); simpl; [by left|].
    destruct (json response) as [data|e]; simpl; [|by left].
    destruct (get data "address") as [found|e]; simpl; [|by left].
    destruct (locality (or found (Object []))) as [parts|e]; simpl; [|by left].
    destruct (get (or found (Object [])) "state") as [state|e]; simpl; [|by left].
    destruct (get (or found (Object [])) "country") as [country|e]; simpl; [|by left].
    destruct (0 <? _); simpl; eauto.
  - intros response data address city state country
      Hfetch Hok Hjson Haddress Hcity Hc Hstate Hs Hcountry Hk.
    unfold getLocationName. rewrite Hfetch. simpl. rewrite Hok. simpl.
    rewrite Hjson. simpl. rewrite Haddress. simpl.
    unfold locality. simpl. rewrite Hcity, Hstate, Hcountry. simpl.
    apply String.eqb_neq in Hc, Hs, Hk. rewrite Hc, Hs, Hk. done.
Qed.

(** *** Grouping *)

Lemma exif_field_cases photo k :
  photo <> Null -> photo <> Undefined ->
  exists exif,
    get photo "exif" = Ok exif
    /\ ((exif = Undefined \/ exif = Null) /\ exif_field photo k = Ok Undefined
        \/ exists v name, exif_field photo k = Ok v /\ get exif k = Ok v
                          /\ get exif "locationName" = Ok name).
Proof.
  intros Hnull Hundef. unfold exif_field.
  assert (Hexif : exists exif, get photo "exif" = Ok exif).
  { destruct photo; simpl; try done; eauto. }
  destruct Hexif as [exif Hexif]. exists exif. rewrite Hexif. split; [done|]. simpl.
  destruct exif; simpl; eauto 10.
Qed.

Lemma push_to_nearby_spec radiusKm photo lat lon groups groups' :
  push_to_nearby radiusKm photo lat lon groups = Some groups' ->
  concat (photos <$> groups') ≡ₚ photo :: concat (photos <$> groups)
  /\ (Forall headed groups -> Forall headed groups').
Proof.
  revert groups'. induction groups as [|group rest IH]; intros groups'; simpl; [done|].
  destruct (num_le _ _).
  - intros [= <-]. simpl. split.
    + rewrite <- (assoc_L (++)). simpl. by rewrite <- Permutation_middle.
    + intros Hall. apply Forall_cons in Hall as [(first & others & Hp & Hlat & Hlon) Hall].
      apply Forall_cons. split; [|done].
      exists first, (others ++ [photo]). simpl. by rewrite Hp.
  - destruct (push_to_nearby radiusKm photo lat lon rest) as [rest'|]; [|done].
    intros [= <-]. destruct (IH rest' eq_refl) as [Hperm Hheaded]. simpl. split.
    + rewrite Hperm. by rewrite <- Permutation_middle.
    + intros Hall. apply Forall_cons in Hall as [Hgroup Hall].
      apply Forall_cons. split; [done|]. by apply Hheaded.
Qed.

Lemma place_photo_spec radiusKm groups photo :
  photo <> Null -> photo <> Undefined ->
  exists groups',
    place_photo radiusKm groups photo = Ok groups'
    /\ concat (photos <$> groups')
       ≡ₚ (if located photo then [photo] else []) ++ concat (photos <$> groups)
    /\ (Forall headed groups -> Forall headed groups').
Proof.
  intros Hnull Hundef. unfold place_photo, located.
  destruct (exif_field_cases photo "latitude" Hnull Hundef)
    as (exif & Hexif & [[_ Hlat] | (lat & name & Hlat & _ & Hname)]).
  { rewrite Hlat. simpl. exists groups. split; [done|]. split; [|done].
    by destruct (exif_field photo "longitude"). }
  rewrite Hlat. simpl.
  destruct (truthy lat) eqn:Htlat; simpl.
  2:{ exists groups. split; [done|]. split; [|done].
      by destruct (exif_field photo "longitude"). }
  destruct (exif_field_cases photo "longitude" Hnull Hundef)
    as (exif' & Hexif' & [[_ Hlon] | (lon & name' & Hlon & _ & _)]).
  { rewrite Hlon. simpl. by exists groups. }
  rewrite Hlon. simpl.
  destruct (truthy lon) eqn:Htlon; simpl; [|by exists groups].
  destruct (push_to_nearby radiusKm photo lat lon groups) as [groups'|] eqn:Hpush.
  - exists groups'. split; [done|]. by apply push_to_nearby_spec in Hpush.
  - rewrite Hexif. simpl. rewrite Hname. simpl. eexists. split; [done|]. split.
    + rewrite fmap_app, concat_app. simpl.
      by rewrite <- Permutation_middle, app_nil_r.
    + intros Hall. apply Forall_app. split; [done|]. apply Forall_singleton.
      by exists photo, [].
Qed.

Lemma forEach_place_spec radiusKm remaining groups :
  Forall (fun photo => photo <> Null /\ photo <> Undefined) remaining ->
  exists groups',
    forEach_place radiusKm remaining groups = Ok groups'
    /\ concat (photos <$> groups')
       ≡ₚ concat (photos <$> groups) ++ filter (fun photo => located photo = true) remaining
    /\ (Forall headed groups -> Forall headed groups').
Proof.
  intros Hall. revert groups.
  induction Hall as [|photo rest [Hnull Hundef] _ IH]; intros groups; simpl.
  - exists groups. by rewrite app_nil_r.
  - destruct (place_photo_spec radiusKm groups photo Hnull Hundef)
      as (groups1 & -> & Hperm1 & Hheaded1). simpl.
    destruct (IH groups1) as (groups' & -> & Hperm & Hheaded).
    exists groups'. split; [done|]. split; [|by auto].
    rewrite Hperm, Hperm1.
    destruct (located photo) eqn:Hlocated; simpl.
    + rewrite filter_cons_True by done. by rewrite <- Permutation_middle.
    + rewrite filter_cons_False; [done|]. by rewrite Hlocated.
Qed.

(** X17. [groupPhotosByLocation] neither loses nor duplicates a photo: when
    no element of the array is null or undefined it does not throw, the
    photos of its groups taken together are exactly the photos with both
    coordinates (each as often as it occurs in the input), photos without
    coordinates appear in no group, and every group is non-empty and carries
    the coordinates of its first photo. *)
Theorem groupPhotosByLocation_partitions_located_photos photoList radiusKm :
  Forall (fun photo => photo <> Null /\ photo <> Undefined) photoList ->
  exists groups,
    groupPhotosByLocation photoList radiusKm = Ok groups
    /\ concat (photos <$> groups) ≡ₚ filter (fun photo => located photo = true) photoList
    /\ Forall headed groups.
Proof.
  intros Hall. unfold groupPhotosByLocation.
  destruct (forEach_place_spec
              (match radiusKm with Undefined => Number (Fin 1) | _ => radiusKm end)
              photoList [] Hall) as (groups & Hrun & Hperm & Hheaded).
  exists groups. split; [done|]. split; [done|]. by apply Hheaded.
Qed.

End ExtractorFormats.

(** *** The extractor on further samples *)

Lemma groupPhotosByLocation_partitions_located_photos_witness :
  exists groups,
    @ExifUtils.groupPhotosByLocation ExifUtils.wholeNumbers ExifUtils.degreesApart
       ExifUtils.tripPhotos JS.Undefined = JS.Ok groups
    /\ concat (ExifUtils.photos <$> groups)
       ≡ₚ filter (fun photo => ExifUtils.located photo = true) ExifUtils.tripPhotos
    /\ Forall ExifUtils.headed groups.
Proof.
  apply (@groupPhotosByLocation_partitions_located_photos ExifUtils.wholeNumbers
           ExifUtils.degreesApart ExifUtils.tripPhotos JS.Undefined).
  by repeat constructor.
Defined.

Lemma getLocationName_null_or_name_witness :
  @ExifUtils.getLocationName ExifUtils.wholeNumbers ExifUtils.onlineGeocoder
     (JS.Number (JS.Fin (488566 # 10000))) (JS.Number (JS.Fin (23522 # 10000)))
  = JS.Ok (JS.String "Paris, Ile-de-France, France").
Proof.
  destruct (@getLocationName_null_or_name ExifUtils.wholeNumbers
              ExifUtils.onlineGeocoder
              (JS.Number (JS.Fin (488566 # 10000)))
              (JS.Number (JS.Fin (23522 # 10000)))) as [_ Hname].
  by eapply (Hname _ _ _ "Paris" "Ile-de-France" "France").
Defined.

(** The three located photos of the trip fall into two groups, the two
    taken on the same spot together. *)
Example groupPhotosByLocation_trip :
  match @ExifUtils.groupPhotosByLocation ExifUtils.wholeNumbers
          ExifUtils.degreesApart ExifUtils.tripPhotos JS.Undefined with
  | JS.Ok groups => map (fun g => length (ExifUtils.photos g)) groups
  | JS.Throw _ => []
  end = [2; 1].
Proof. vm_compute. reflexivity. Qed.

(** ** The remote control: one event, one command *)

Section RemoteControl.
Import JS KeyboardNavigation.

Implicit Types (h : Handlers) (e : KeyEvent) (pf : Platform) (view : View).

Lemma call_spec h c :
  length (call h c) <= 1 /\ Forall (fun c' => provided h c' = true) (call h c).
Proof.
  unfold call. destruct (provided h c) eqn:E; simpl; split; try lia; auto.
Qed.

(** X18. [handleKeyDown] invokes at most one callback per event, only one
    that was passed to the hook, and none unless the event is a menu, back
    or play/pause key.  With the second listener, [handleTVKey], an event
    still invokes only callbacks that were passed, and at most one of them
    on a platform that is neither webOS nor Tizen. *)
Theorem one_event_at_most_one_callback pf h e :
  length (handleKeyDown h e).2 <= 1
  /\ ((handleKeyDown h e).2 <> [] ->
      isMenuKey e || isBackKey e || isPlayPauseKey e = true)
  /\ Forall (fun c => provided h c = true) (keydown pf h e)
  /\ (webOS pf = false -> tizen pf = false -> length (keydown pf h e) <= 1).
Proof.
  assert (Hdown : length (handleKeyDown h e).2 <= 1
                  /\ Forall (fun c => provided h c = true) (handleKeyDown h e).2
                  /\ ((handleKeyDown h e).2 <> [] ->
                      isMenuKey e || isBackKey e || isPlayPauseKey e = true)).
  { unfold handleKeyDown.
    destruct (isMenuKey e); [split; [|split]; try apply call_spec; done|].
    destruct (isBackKey e); [split; [|split]; try apply call_spec; done|].
    destruct (isPlayPauseKey e); [|simpl; split; [lia|done]].
    simpl. destruct (String.eqb (key e) "MediaPlay"), (String.eqb (key e) "MediaPause"),
      (onPlay h) eqn:Hplay, (onPause h) eqn:Hpause; simpl;
      (split; [lia|split; [|done]]); repeat constructor; done. }
  destruct Hdown as (Hlen & Hprovided & Hkeys).
  split; [done|]. split; [done|]. split.
  - unfold keydown. apply Forall_app. split; [done|].
    unfold handleTVKey. apply Forall_app. split.
    + destruct (webOS pf); [|done].
      destruct (_ =? _)%N; [apply call_spec|].
      destruct (_ =? _)%N; [apply call_spec|done].
    + destruct (tizen pf); [|done].
      destruct (strict_eq_string (keyName e) "Back"
                || strict_eq_string (keyName e) "Return"); [apply call_spec|].
      destruct (strict_eq_string (keyName e) "Menu"
                || strict_eq_string (keyName e) "Tools"); [apply call_spec|done].
  - intros Hweb Htizen. unfold keydown, handleTVKey. rewrite Hweb, Htizen.
    by rewrite !app_nil_r.
Qed.

(** X19. [handleKeyDown] suppresses the browser's default handling for
    every menu key; for any other event it does so exactly when the key is
    a navigation key and the target is neither an INPUT nor a SELECT
    element. *)
Theorem default_handling_is_kept_in_form_fields h e :
  (isMenuKey e = true -> (handleKeyDown h e).1 = true)
  /\ (isMenuKey e = false ->
      (handleKeyDown h e).1
      = bool_decide (key e ∈ navigationKeys
                     /\ tagName e <> "INPUT" /\ tagName e <> "SELECT")).
Proof.
  split.
  - intros Hmenu. unfold handleKeyDown. by rewrite Hmenu.
  - intros Hmenu.
    assert (Hprevented :
      (handleKeyDown h e).1
      = existsb (String.eqb (key e)) navigationKeys
        && negb (String.eqb (tagName e) "INPUT")
        && negb (String.eqb (tagName e) "SELECT")).
    { unfold handleKeyDown. rewrite Hmenu.
      destruct (isBackKey e); [done|]. by destruct (isPlayPauseKey e). }
    rewrite Hprevented. symmetry.
    destruct (existsb _ _) eqn:Hnav; simpl.
    + apply existsb_exists in Hnav as (k & Hin & Hk).
      apply String.eqb_eq in Hk as <-. apply list_elem_of_In in Hin.
      destruct (String.eqb_spec (tagName e) "INPUT") as [Hi|Hi]; simpl.
      { apply bool_decide_eq_false. tauto. }
      destruct (String.eqb_spec (tagName e) "SELECT") as [Hs|Hs]; simpl.
      { apply bool_decide_eq_false. tauto. }
      by apply bool_decide_eq_true.
    + apply bool_decide_eq_false. intros (Hin & _).
      apply list_elem_of_In in Hin.
      assert (existsb (String.eqb (key e)) navigationKeys = true); [|congruence].
      apply existsb_exists. exists (key e). split; [done|]. apply String.eqb_refl.
Qed.

Lemma default_handling_is_kept_in_form_fields_witness :
  (handleKeyDown appHandlers backspaceInInput).1 = false.
Proof.
  destruct (default_handling_is_kept_in_form_fields appHandlers backspaceInInput)
    as [_ Hother].
  rewrite Hother; [|reflexivity].
  apply bool_decide_eq_false. intros (_ & Hinput & _). by apply Hinput.
Defined.

(** *** The views of App *)

Lemma fold_invoke_after_menu view cmds :
  fold_left (invoke view) cmds (otherView view) = otherView view.
Proof.
  induction cmds as [|c cmds IH]; [done|]. simpl.
  destruct c, view; simpl; exact IH.
Qed.

Lemma fold_invoke_menu view cmds current :
  Menu ∈ cmds -> fold_left (invoke view) cmds current = otherView view.
Proof.
  revert current. induction cmds as [|c cmds IH]; intros current Hin.
  - by apply elem_of_nil in Hin.
  - simpl. destruct (decide (c = Menu)) as [->|Hne].
    + apply fold_invoke_after_menu.
    + apply IH. apply elem_of_cons in Hin as [?|?]; [congruence|done].
Qed.

Lemma fold_invoke_slideshow view cmds :
  Menu ∉ cmds -> fold_left (invoke view) cmds SlideshowView = SlideshowView.
Proof.
  induction cmds as [|c cmds IH]; intros Hout; [done|]. simpl.
  apply not_elem_of_cons in Hout as [Hne Hout].
  destruct c, view; try done; simpl; by apply IH.
Qed.

Lemma fold_invoke_back view cmds :
  Menu ∉ cmds ->
  fold_left (invoke view) cmds view
  = if bool_decide (Back ∈ cmds) then SlideshowView else view.
Proof.
  induction cmds as [|c cmds IH]; intros Hout; [done|]. simpl.
  apply not_elem_of_cons in Hout as [Hne Hout].
  destruct c; try done.
  - rewrite bool_decide_eq_true_2 by apply list_elem_of_here.
    destruct view; simpl; by apply fold_invoke_slideshow.
  - simpl. rewrite IH by done.
    rewrite (bool_decide_ext (Back ∈ Play :: cmds) (Back ∈ cmds)); [done|].
    rewrite elem_of_cons. split; [by intros [?|?] | by right].
  - simpl. rewrite IH by done.
    rewrite (bool_decide_ext (Back ∈ Pause :: cmds) (Back ∈ cmds)); [done|].
    rewrite elem_of_cons. split; [by intros [?|?] | by right].
Qed.

(** X20. The view in which the callbacks of the hook leave App after a key
    event depends only on which of them the event invoked, not on how often
    or in which order: if [onMenu] was among them the view is the other
    view, else if [onBack] was among them it is the slideshow, else it is
    unchanged.  In particular the Menu button
    of a webOS remote, which invokes [onMenu] from both listeners, switches
    the view once, and a second press switches it back. *)
Theorem view_after_a_key_event pf view e :
  viewAfter pf view e
  = (if bool_decide (Menu ∈ keydown pf appHandlers e) then otherView view
     else if bool_decide (Back ∈ keydown pf appHandlers e) then SlideshowView
     else view)
  /\ (webOS pf = true -> keyCode e = 1001%N ->
      keydown pf appHandlers e = Menu :: Menu :: handleTVKey
                                   {| webOS := false; tizen := tizen pf |} appHandlers e
      /\ viewAfter pf view e = otherView view
      /\ viewAfter pf (viewAfter pf view e) e = view).
Proof.
  assert (Hview : forall v, viewAfter pf v e
    = (if bool_decide (Menu ∈ keydown pf appHandlers e) then otherView v
       else if bool_decide (Back ∈ keydown pf appHandlers e) then SlideshowView
       else v)).
  { intros v. unfold viewAfter. case_bool_decide as Hmenu.
    - by apply fold_invoke_menu.
    - by apply fold_invoke_back. }
  split; [apply Hview|].
  intros Hweb Hcode.
  assert (Hcmds : keydown pf appHandlers e
                  = Menu :: Menu :: handleTVKey {| webOS := false; tizen := tizen pf |}
                                      appHandlers e).
  { unfold keydown, handleKeyDown, handleTVKey, isMenuKey. rewrite Hweb, Hcode. simpl.
    by rewrite !orb_true_r. }
  split; [done|].
  assert (Hmenu : Menu ∈ keydown pf appHandlers e).
  { rewrite Hcmds. apply list_elem_of_here. }
  rewrite !Hview. rewrite !bool_decide_eq_true_2 by done.
  split; [done|]. by destruct view.
Qed.

Lemma view_after_a_key_event_witness :
  keydown lgTV appHandlers lgMenuButton = [Menu; Menu]
  /\ viewAfter lgTV SlideshowView lgMenuButton = SettingsView
  /\ viewAfter lgTV (viewAfter lgTV SlideshowView lgMenuButton) lgMenuButton
     = SlideshowView.
Proof.
  destruct (view_after_a_key_event lgTV SlideshowView lgMenuButton) as [_ Hmenu].
  apply Hmenu; reflexivity.
Defined.

End RemoteControl.

(** ** The overlay: what is shown and what is not *)

Section OverlayContent.
Import JS ExifOverlay.
Context `{Builtins} `{DateFormat}.

Lemma formatCameraInfo_empty props :
  truthy (lookup_prop "model" props) = false ->
  truthy (lookup_prop "fNumber" props) = false ->
  truthy (lookup_prop "exposureTime" props) = false ->
  truthy (lookup_prop "iso" props) = false ->
  truthy (lookup_prop "focalLength" props) = false ->
  formatCameraInfo (Object props) = Ok None.
Proof.
  intros Hmodel Hf He Hi Hl. unfold formatCameraInfo, cameraSettings.
  cbn -[truthy lookup_prop to_string join]. rewrite Hmodel, Hf, He, Hi, Hl.
  by rewrite andb_false_r.
Qed.

(** X21. The camera block of the overlay is missing exactly when the record
    has no model and none of aperture, exposure time, ISO and focal length:
    a camera make alone does not show.  When present it has one or two
    lines. *)
Theorem camera_block_needs_a_model_or_a_setting props :
  exists block,
    formatCameraInfo (Object props) = Ok block
    /\ (block = None <->
        truthy (lookup_prop "model" props) = false
        /\ truthy (lookup_prop "fNumber" props) = false
        /\ truthy (lookup_prop "exposureTime" props) = false
        /\ truthy (lookup_prop "iso" props) = false
        /\ truthy (lookup_prop "focalLength" props) = false)
    /\ (forall lines, block = Some lines -> 1 <= length lines <= 2).
Proof.
  unfold formatCameraInfo, cameraSettings.
  cbn -[truthy lookup_prop to_string join].
  destruct (truthy (lookup_prop "make" props)),
    (truthy (lookup_prop "model" props)),
    (truthy (lookup_prop "fNumber" props)),
    (truthy (lookup_prop "exposureTime" props)),
    (truthy (lookup_prop "iso" props)),
    (truthy (lookup_prop "focalLength" props));
    cbn -[to_string join lookup_prop]; eexists; (split; [reflexivity|]);
    (split; [split; [discriminate || done | intros (? & ? & ? & ? & ?); done] |
             intros lines [= <-] || intros lines [=]; simpl; lia]).
Qed.

(** X22. [formatLocation] prints the absolute values of the coordinates with
    N or S and E or W chosen by their signs; a latitude or longitude of
    exactly 0 (the equator, the prime meridian) yields null, so that no
    coordinate line is shown. *)
Theorem formatLocation_hemispheres (a b : Q) :
  ((a == 0)%Q \/ (b == 0)%Q ->
   formatLocation (Number (Fin a)) (Number (Fin b)) = Null)
  /\ (~ (a == 0)%Q -> ~ (b == 0)%Q ->
      formatLocation (Number (Fin a)) (Number (Fin b))
      = String (toFixed (Fin (Qabs a)) 4 +:+ "° "
                +:+ (if Qle_bool 0 a then "N" else "S") +:+ ", "
                +:+ toFixed (Fin (Qabs b)) 4 +:+ "° "
                +:+ (if Qle_bool 0 b then "E" else "W"))).
Proof.
  unfold formatLocation. simpl truthy. unfold is_zero. split.
  - intros [Hz | Hz]; apply Qeq_bool_iff in Hz; rewrite Hz; simpl; [done|].
    by rewrite orb_true_r.
  - intros Ha Hb.
    destruct (Qeq_bool a 0) eqn:Ea; [by apply Qeq_bool_iff in Ea|].
    destruct (Qeq_bool b 0) eqn:Eb; [by apply Qeq_bool_iff in Eb|].
    done.
Qed.

(** X23. The overlay renders nothing when there is no metadata, and when
    the display policy and the record leave nothing to show: date and
    location switched off and either the camera block switched off or a
    record without model, aperture, exposure time, ISO and focal length. *)
Theorem overlay_renders_nothing_without_content exifData policy visible :
  (truthy exifData = false ->
   render exifData (Object policy) visible = Ok None)
  /\ (forall props,
        exifData = Object props ->
        truthy (lookup_prop "showDateTime" policy) = false ->
        truthy (lookup_prop "showLocation" policy) = false ->
        truthy (lookup_prop "showCameraInfo" policy) = false
        \/ (truthy (lookup_prop "model" props) = false
            /\ truthy (lookup_prop "fNumber" props) = false
            /\ truthy (lookup_prop "exposureTime" props) = false
            /\ truthy (lookup_prop "iso" props) = false
            /\ truthy (lookup_prop "focalLength" props) = false) ->
        render exifData (Object policy) visible = Ok None).
Proof.
  split.
  - intros Hfalsy. unfold render. simpl. by rewrite Hfalsy.
  - intros props -> Hdate Hloc Hcamera. unfold render.
    cbn -[truthy lookup_prop formatCameraInfo formatLocation formatDateTime].
    rewrite Hdate, Hloc.
    cbn -[truthy lookup_prop formatCameraInfo].
    destruct (truthy (lookup_prop "showCameraInfo" policy)) eqn:Hshow.
    + destruct Hcamera as [?|(Hm & Hf & He & Hi & Hl)]; [done|].
      rewrite (formatCameraInfo_empty props Hm Hf He Hi Hl). done.
    + done.
Qed.

End OverlayContent.

Lemma overlay_renders_nothing_without_content_witness :
  @ExifOverlay.render ConfigService.sampleBuiltins ExifOverlay.echoDate
     ExifOverlay.makeOnly ExifOverlay.cameraOnly true = JS.Ok None.
Proof.
  destruct (@overlay_renders_nothing_without_content ConfigService.sampleBuiltins
              ExifOverlay.echoDate ExifOverlay.makeOnly
              [("showDateTime", JS.Bool false); ("showLocation", JS.Bool false);
               ("showCameraInfo", JS.Bool true); ("position", JS.String "bottom-left");
               ("autoHide", JS.Bool false)] true) as [_ Hnothing].
  apply (Hnothing _ eq_refl); [reflexivity | reflexivity |].
  right. by repeat split.
Defined.

Lemma formatLocation_hemispheres_witness :
  @ExifOverlay.formatLocation ConfigService.sampleBuiltins
     (JS.Number (JS.Fin 0)) (JS.Number (JS.Fin (783 # 10))) = JS.Null.
Proof.
  destruct (@formatLocation_hemispheres ConfigService.sampleBuiltins 0 (783 # 10))
    as [Hzero _].
  apply Hzero. by left.
Defined.

(** ** The preload cache *)

Section PreloadCache.
Import Slideshow Preload.

Implicit Types (ss : Session) (p : Props) (l : list string).

Lemma preloadImage_inv l rendered index images :
  Forall (fun image => image.1 = l !! image.2) images ->
  Forall (fun image => image.1 = l !! image.2)
    (preloadImage rendered (l !! index) index images).
Proof.
  intros Hall. unfold preloadImage. destruct (truthyUrl _); [done|].
  apply Forall_app. split; [done|]. by apply Forall_singleton.
Qed.

Lemma cacheInv_effect l ss : cacheInv l ss -> cacheInv l (preloadEffect ss).
Proof.
  intros (Hp & Hcache & Hloading). unfold preloadEffect.
  destruct (_ =? _); [done|].
  split; [done|]. split; [done|]. simpl. rewrite Hp.
  destruct (truthyUrl _); repeat apply preloadImage_inv; done.
Qed.

Lemma cacheInv_occur p l ss ev : cacheInv l ss -> cacheInv l (occur p ev ss).
Proof.
  intros (Hp & Hcache & Hloading). destruct ev as [e|k|k]; simpl.
  - split; [|done]. simpl. by rewrite step_photos.
  - destruct (loading ss !! k) as [[url index]|] eqn:Hk; [|done].
    split; [done|]. split; simpl.
    + intros i u. destruct (decide (index = i)) as [<-|Hne].
      * rewrite lookup_insert_eq. intros [= <-].
        by apply (Forall_lookup_1 _ _ _ _ Hloading Hk).
      * rewrite lookup_insert_ne by done. apply Hcache.
    + by apply Forall_delete.
  - split; [done|]. split; [done|]. simpl. by apply Forall_delete.
Qed.

Lemma sessionReachable_inv p l ss : sessionReachable p l ss -> cacheInv l ss.
Proof.
  intros Hr. induction Hr as [|ss ev _ IH].
  - apply cacheInv_effect. split; [|done]. simpl.
    by destruct (ready_playback p l) as (-> & _).
  - unfold sessionStep. destruct (depsChanged _ _ _).
    + by apply cacheInv_effect, cacheInv_occur.
    + by apply cacheInv_occur.
Qed.

(** X24. In every state of a session the preload cache holds, at each index
    it has, the URL of the photo at that index, and every image still
    loading was started for the photo at its index.  No event removes an
    entry: what is cached stays cached with the same URL. *)
Theorem preload_cache_holds_the_indexed_photos p l ss :
  sessionReachable p l ss ->
  (forall index url,
     preloadedImages ss !! index = Some url -> url = photos (playback ss) !! index)
  /\ Forall (fun image => image.1 = photos (playback ss) !! image.2) (loading ss)
  /\ forall ev index url,
       preloadedImages ss !! index = Some url ->
       preloadedImages (sessionStep p ss ev) !! index = Some url.
Proof.
  intros Hr. destruct (sessionReachable_inv p l ss Hr) as (Hp & Hcache & Hloading).
  rewrite Hp. split; [done|]. split; [done|].
  intros ev index url Hin.
  assert (Hoccur : preloadedImages (occur p ev ss) !! index = Some url).
  { destruct ev as [e|k|k]; simpl; try done.
    destruct (loading ss !! k) as [[url' index']|] eqn:Hk; [|done]. simpl.
    destruct (decide (index' = index)) as [->|Hne].
    - rewrite lookup_insert_eq. f_equal.
      rewrite (Hcache _ _ Hin). by apply (Forall_lookup_1 _ _ _ _ Hloading Hk).
    - by rewrite lookup_insert_ne. }
  unfold sessionStep. destruct (depsChanged _ _ _); [|done].
  unfold preloadEffect. by destruct (_ =? _).
Qed.

Lemma preload_cache_holds_the_indexed_photos_witness :
  let ss := sessionStep sampleProps
              (sessionStep sampleProps (mounted sampleProps samplePhotos)
                 (ImageLoads 0))
              (Playback (KeyDown "ArrowRight")) in
  preloadedImages ss !! 0 = Some (Some "A.jpg")
  /\ (forall index url,
        preloadedImages ss !! index = Some url -> url = photos (playback ss) !! index)
  /\ Forall (fun image => image.1 = photos (playback ss) !! image.2) (loading ss).
Proof.
  intros ss. split; [reflexivity|].
  destruct (preload_cache_holds_the_indexed_photos sampleProps samplePhotos ss)
    as (Hcache & Hloading & _); [|done].
  repeat apply session_step. apply session_mounted.
Defined.

End PreloadCache.


